(** * Brute-force K-nearest-neighbours regressor (class [KNN] of
    knn_workshop.ipynb)

    The notebook's class keeps two attributes, [X_train] and [y_train], set
    by [fit]; [predict] scans every training row for every query row, sorts
    the distances with numpy's [argsort], keeps the first [k] indices and
    averages the targets found there.

    The class is embedded twice.

    The first part idealises numpy's float64 values as exact rationals [Q]
    (equality is [Qeq], [==]), with the [nan] that [np.mean] returns on an
    empty selection as a separate constructor, and keeps a Euclidean
    distance as the radicand under the constructor [sqrt].  It carries the
    properties that rounding cannot change: exceptions, shapes, slices, the
    order in which the loops fill their arrays, the state of the object.

    The second part, [Float64], embeds the same methods over binary64.  It
    carries the properties in which the value of a prediction or the order
    of two distances matters. *)

From Stdlib Require Import List ZArith QArith Qminmax Lia Lqa Bool.
From Stdlib Require Import Permutation Sorted Morphisms Setoid.
Import ListNotations.

Set Implicit Arguments.

(** ** Python exceptions and the state of the object *)

Inductive error : Type :=
| AttributeError   (* an attribute of [self] that was never assigned *)
| ValueError       (* operands that cannot be broadcast together *)
| IndexError.      (* an index outside the array *)

Inductive result (A : Type) : Type :=
| Ok (a : A)
| Err (e : error).
Arguments Ok {A} a.
Arguments Err {A} e.

(** A float of the output: [nan] or a number. *)
Inductive value : Type :=
| nan
| real (q : Q).

(** A distance [sqrt s], represented by its radicand [s]. *)
Inductive distance : Type :=
| sqrt (s : Q).

Definition radicand (d : distance) : Q := match d with sqrt s => s end.

Definition dist_le (a b : distance) : Prop := radicand a <= radicand b.
Definition dist_lt (a b : distance) : Prop := radicand a < radicand b.
Definition dist_leb (a b : distance) : bool := Qle_bool (radicand a) (radicand b).

(** A 1-D array is a list, a 2-D array the list of its rows. *)
Definition vec := list Q.
Definition matrix := list vec.

(** The instance dictionary of a [KNN] object: an attribute is [None] until
    it has been assigned. *)
Record KNN : Type := mkKNN {
  X_train : option matrix;
  y_train : option (list Q)
}.

(** [KNN()] : the class has no [__init__], a new object has no attribute. *)
Definition KNN_new : KNN := mkKNN None None.

(** ** Methods run in a state-and-exception monad over [self] *)

Definition M (A : Type) : Type := KNN -> result A * KNN.

Definition ret {A} (a : A) : M A := fun self => (Ok a, self).
Definition bind {A B} (m : M A) (f : A -> M B) : M B :=
  fun self =>
    match m self with
    | (Ok a, self') => f a self'
    | (Err e, self') => (Err e, self')
    end.
Definition lift {A} (r : result A) : M A := fun self => (r, self).

Declare Scope knn_scope.
Delimit Scope knn_scope with knn.
Notation "x <- m ;; f" := (bind m (fun x => f))
  (at level 61, m at next level, right associativity) : knn_scope.
Notation "m ;;; f" := (bind m (fun _ => f))
  (at level 61, right associativity) : knn_scope.
Open Scope knn_scope.

(** [self.X_train], [self.y_train] read ... *)
Definition get_X_train : M matrix :=
  fun self => (match X_train self with
               | Some X => Ok X
               | None => Err AttributeError
               end, self).
Definition get_y_train : M (list Q) :=
  fun self => (match y_train self with
               | Some y => Ok y
               | None => Err AttributeError
               end, self).
(** ... and assigned. *)
Definition set_X_train (X : matrix) : M unit :=
  fun self => (Ok tt, mkKNN (Some X) (y_train self)).
Definition set_y_train (y : list Q) : M unit :=
  fun self => (Ok tt, mkKNN (X_train self) (Some y)).

(** The outcome and the final state of a call. *)
Definition outcome {A} (m : M A) (self : KNN) : result A := fst (m self).
Definition after {A} (m : M A) (self : KNN) : KNN := snd (m self).

(** ** numpy and scipy primitives *)

(** [np.zeros(n)] *)
Definition zeros {A} (zero : A) (n : nat) : list A := repeat zero n.

(** [a[i] = v] : in place, [IndexError] outside the array. *)
Fixpoint setitem {A} (a : list A) (i : nat) (v : A) : result (list A) :=
  match a, i with
  | [], _ => Err IndexError
  | _ :: a', O => Ok (v :: a')
  | x :: a', S i' =>
      match setitem a' i' v with
      | Ok r => Ok (x :: r)
      | Err e => Err e
      end
  end.

(** [u - v] on 1-D arrays, with numpy's broadcasting: equal lengths, or one
    of the two of length one; anything else is a [ValueError]. *)
Fixpoint sub_pointwise (u v : vec) : vec :=
  match u, v with
  | a :: u', b :: v' => (a - b) :: sub_pointwise u' v'
  | _, _ => []
  end.

Definition broadcast_sub (u v : vec) : result vec :=
  if Nat.eqb (length u) (length v) then Ok (sub_pointwise u v)
  else match u, v with
       | [a], _ => Ok (map (fun b => a - b) v)
       | _, [b] => Ok (map (fun a => a - b) u)
       | _, _ => Err ValueError
       end.

(** [np.sum] *)
Definition sum (l : list Q) : Q := fold_left Qplus l 0.

(** [scipy.spatial.distance.euclidean(u, v)] : the 2-norm of [u - v]. *)
Definition euc (u v : vec) : result distance :=
  match broadcast_sub u v with
  | Ok w => Ok (sqrt (sum (map (fun c => c * c) w)))
  | Err e => Err e
  end.

(** [a[:k]] for a Python integer [k]: a negative [k] counts from the end. *)
Definition slice_to {A} (a : list A) (k : Z) : list A :=
  if (0 <=? k)%Z then firstn (Z.to_nat k) a
  else firstn (length a - Z.to_nat (- k)) a.

(** The monadic [map] over [result]: the first error wins. *)
Fixpoint traverse {A B} (f : A -> result B) (l : list A) : result (list B) :=
  match l with
  | [] => Ok []
  | x :: l' =>
      match f x with
      | Err e => Err e
      | Ok y =>
          match traverse f l' with
          | Ok r => Ok (y :: r)
          | Err e => Err e
          end
      end
  end.

(** [a[i]] for one index. *)
Definition getitem {A} (a : list A) (i : nat) : result A :=
  match nth_error a i with
  | Some x => Ok x
  | None => Err IndexError
  end.

(** [a[idx]] for an array of indices: a fresh array, [IndexError] as soon as
    one index is outside [a]. *)
Definition take {A} (a : list A) (idx : list nat) : result (list A) :=
  traverse (getitem a) idx.

(** [np.mean] : [nan] on an empty array, the sum over the length otherwise. *)
Definition mean (l : list Q) : value :=
  match l with
  | [] => nan
  | _ :: _ => real (sum l / inject_Z (Z.of_nat (length l)))
  end.

(** Index [i] is no farther than index [j], in the array of distances. *)
Definition by_distance (ds : list distance) (i j : nat) : Prop :=
  dist_le (nth i ds (sqrt 0)) (nth j ds (sqrt 0)).

(** [np.argsort(distances)] with numpy's default [kind] (quicksort, which is
    not a stable sort): what numpy documents is that the result lists every
    index once and that the distances read in that order are ascending.
    Which of two equal distances comes first is left to the implementation,
    so the class is verified against this interface. *)
Class Argsort : Type := {
  argsort : list distance -> list nat;
  argsort_perm : forall d, Permutation (argsort d) (seq 0 (length d));
  argsort_sorted : forall d, StronglySorted (by_distance d) (argsort d)
}.

(** [for i, x in enumerate(xs): body], threading the local array the body
    updates. *)
Fixpoint for_enumerate {A B} (body : nat -> A -> B -> M B)
         (i : nat) (xs : list A) (acc : B) : M B :=
  match xs with
  | [] => ret acc
  | x :: xs' => acc' <- body i x acc ;; for_enumerate body (S i) xs' acc'
  end.

(** ** The class *)

Section KNN_class.
Context {AS : Argsort}.

(** [fit] *)
Definition fit (X_train : matrix) (y_train : list Q) : M unit :=
  set_X_train X_train ;;;
  set_y_train y_train.

(** [_get_distances] *)
Definition _get_distances (x : vec) : M (list distance) :=
  X <- get_X_train ;;
  let distances := zeros (sqrt 0) (length X) in
  for_enumerate (fun i point distances =>
                   d <- lift (euc x point) ;;
                   lift (setitem distances i d))
                0 X distances.

(** [_get_k_nearest] *)
Definition _get_k_nearest (distances : list distance) (k : Z) : M (list nat) :=
  let nearest := slice_to (argsort distances) k in
  ret nearest.

(** [_get_predicted_value] *)
Definition _get_predicted_value (k_nearest : list nat) : M value :=
  y <- get_y_train ;;
  selected <- lift (take y k_nearest) ;;
  ret (mean selected).

(** [predict] *)
Definition predict (X_test : matrix) (k : Z) : M (list value) :=
  let predictions := zeros (real 0) (length X_test) in
  for_enumerate (fun i point predictions =>
                   distances <- _get_distances point ;;
                   k_nearest <- _get_k_nearest distances k ;;
                   prediction <- _get_predicted_value k_nearest ;;
                   lift (setitem predictions i prediction))
                0 X_test predictions.

End KNN_class.

(** ** A stable implementation of the [argsort] interface

    An insertion sort over the indices.  [before a b] tells whether a new
    index of distance [a] goes in front of an index of distance [b]. *)

Fixpoint insert_index (before : distance -> distance -> bool)
         (d : list distance) (i : nat) (l : list nat) : list nat :=
  match l with
  | [] => [i]
  | j :: l' =>
      if before (nth i d (sqrt 0)) (nth j d (sqrt 0))
      then i :: j :: l'
      else j :: insert_index before d i l'
  end.

Definition insertion_argsort (before : distance -> distance -> bool)
           (d : list distance) : list nat :=
  fold_right (insert_index before d) [] (seq 0 (length d)).

(** Equal distances keep the order of their indices (a stable sort). *)
Definition stable_before (a b : distance) : bool := dist_leb a b.

Section Insertion.
Variable before : distance -> distance -> bool.
Hypothesis before_true : forall a b, before a b = true -> dist_le a b.
Hypothesis before_false : forall a b, before a b = false -> dist_le b a.

Lemma insert_index_perm d i l :
  Permutation (insert_index before d i l) (i :: l).
Proof.
  induction l as [|j l IH]; simpl.
  - apply Permutation_refl.
  - destruct (before _ _).
    + apply Permutation_refl.
    + eapply perm_trans; [apply perm_skip, IH | apply perm_swap].
Qed.

Lemma fold_insert_perm d l :
  Permutation (fold_right (insert_index before d) [] l) l.
Proof.
  induction l as [|i l IH]; simpl.
  - constructor.
  - eapply perm_trans; [apply insert_index_perm | apply perm_skip, IH].
Qed.

Lemma insertion_argsort_perm d :
  Permutation (insertion_argsort before d) (seq 0 (length d)).
Proof. apply fold_insert_perm. Qed.

Lemma insert_index_sorted d i l :
  StronglySorted (by_distance d) l ->
  StronglySorted (by_distance d) (insert_index before d i l).
Proof.
  induction 1 as [|j l Hs IH Hj]; simpl.
  - repeat constructor.
  - destruct (before _ _) eqn:E.
    + constructor; [constructor; assumption|].
      constructor; [apply before_true, E|].
      apply before_true in E.
      eapply Forall_impl; [|exact Hj].
      intros m Hm. unfold by_distance, dist_le in *.
      eapply Qle_trans; eassumption.
    + constructor; [exact IH|].
      apply (Permutation_Forall (Permutation_sym (insert_index_perm d i l))).
      constructor; [apply before_false, E | exact Hj].
Qed.

Lemma insertion_argsort_sorted d :
  StronglySorted (by_distance d) (insertion_argsort before d).
Proof.
  unfold insertion_argsort.
  induction (seq 0 (length d)) as [|i l IH]; simpl.
  - constructor.
  - apply insert_index_sorted, IH.
Qed.
End Insertion.

Lemma stable_before_true a b : stable_before a b = true -> dist_le a b.
Proof. unfold stable_before, dist_leb, dist_le. apply Qle_bool_imp_le. Qed.

Lemma Qle_bool_false x y : Qle_bool x y = false -> y <= x.
Proof.
  intros H. destruct (Qlt_le_dec y x) as [Hlt|Hle].
  - apply Qlt_le_weak, Hlt.
  - apply Qle_bool_iff in Hle. congruence.
Qed.

Lemma stable_before_false a b : stable_before a b = false -> dist_le b a.
Proof. unfold stable_before, dist_leb, dist_le. apply Qle_bool_false. Qed.

(** A stable argsort: ties resolved by insertion index, first seen first. *)
Definition stable_argsort : Argsort :=
  {| argsort := insertion_argsort stable_before;
     argsort_perm := insertion_argsort_perm stable_before;
     argsort_sorted :=
       insertion_argsort_sorted stable_before
         stable_before_true stable_before_false |}.

(** ** What the two loops compute

    Each loop fills a fresh array of zeros cell by cell, so its result is the
    list of the values assigned, unless an iteration raises. *)

(** One iteration of [predict]'s loop, as a function of the state. *)
Definition predict_point {AS : Argsort} (self : KNN) (k : Z) (point : vec)
  : result value :=
  match X_train self with
  | None => Err AttributeError
  | Some X =>
      match traverse (euc point) X with
      | Err e => Err e
      | Ok distances =>
          match y_train self with
          | None => Err AttributeError
          | Some y =>
              match take y (slice_to (argsort distances) k) with
              | Err e => Err e
              | Ok selected => Ok (mean selected)
              end
          end
      end
  end.

(** A state in which [fit] has stored [X] and [y]. *)
Definition fitted (X : matrix) (y : list Q) : KNN := mkKNN (Some X) (Some y).

(** Every row of a 2-D array has the same length [d]. *)
Definition has_dim (d : nat) (X : matrix) : Prop :=
  Forall (fun row => length row = d) X.

Lemma setitem_app {A} (pre rest : list A) (r v : A) :
  setitem (pre ++ r :: rest) (length pre) v = Ok (pre ++ v :: rest).
Proof.
  induction pre as [|p pre IH]; simpl.
  - reflexivity.
  - rewrite IH. reflexivity.
Qed.

Lemma for_enumerate_fill {A B} (g : A -> result B)
      (body : nat -> A -> list B -> M (list B)) (self : KNN) :
  (forall i x acc,
      body i x acc self =
      (match g x with Ok v => setitem acc i v | Err e => Err e end, self)) ->
  forall xs pre rest,
    length rest = length xs ->
    for_enumerate body (length pre) xs (pre ++ rest) self =
    (match traverse g xs with
     | Ok vs => Ok (pre ++ vs)
     | Err e => Err e
     end, self).
Proof.
  intros Hbody xs.
  induction xs as [|x xs IH]; intros pre rest Hlen.
  - destruct rest; [|discriminate]. reflexivity.
  - destruct rest as [|r rest]; [discriminate|].
    simpl in Hlen. injection Hlen as Hlen.
    simpl. unfold bind. rewrite Hbody.
    destruct (g x) as [v|e]; [|reflexivity].
    rewrite setitem_app.
    replace (S (length pre)) with (length (pre ++ [v]))
      by (rewrite length_app; simpl; lia).
    replace (pre ++ v :: rest) with ((pre ++ [v]) ++ rest)
      by (rewrite <- app_assoc; reflexivity).
    rewrite (IH _ _ Hlen).
    destruct (traverse g xs); [|reflexivity].
    rewrite <- app_assoc. reflexivity.
Qed.

Lemma for_enumerate_zeros {A B} (g : A -> result B)
      (body : nat -> A -> list B -> M (list B)) (self : KNN) (zero : B) xs :
  (forall i x acc,
      body i x acc self =
      (match g x with Ok v => setitem acc i v | Err e => Err e end, self)) ->
  for_enumerate body 0 xs (zeros zero (length xs)) self = (traverse g xs, self).
Proof.
  intros Hbody.
  pose proof (@for_enumerate_fill _ _ g body self Hbody xs []
                (zeros zero (length xs))
                (repeat_length zero (length xs))) as H.
  simpl in H. rewrite H.
  destruct (traverse g xs); reflexivity.
Qed.

Section Runs.
Context {AS : Argsort}.

Lemma _get_distances_run x self :
  _get_distances x self =
  (match X_train self with
   | Some X => traverse (euc x) X
   | None => Err AttributeError
   end, self).
Proof.
  unfold _get_distances, bind, get_X_train.
  destruct (X_train self) as [X|]; [|reflexivity].
  apply for_enumerate_zeros.
  intros i p acc. unfold bind, lift. destruct (euc x p); reflexivity.
Qed.

Lemma _get_predicted_value_run idx self :
  _get_predicted_value idx self =
  (match y_train self with
   | Some y => match take y idx with
               | Ok selected => Ok (mean selected)
               | Err e => Err e
               end
   | None => Err AttributeError
   end, self).
Proof.
  unfold _get_predicted_value, bind, get_y_train, lift, ret.
  destruct (y_train self) as [y|]; [|reflexivity].
  destruct (take y idx); reflexivity.
Qed.

Lemma predict_run X_test k self :
  predict X_test k self = (traverse (predict_point self k) X_test, self).
Proof.
  unfold predict.
  apply for_enumerate_zeros.
  intros i p acc. unfold bind at 1. rewrite _get_distances_run.
    unfold predict_point.
    destruct (X_train self) as [X|]; [|reflexivity].
    destruct (traverse (euc p) X) as [ds|e]; [|reflexivity].
    unfold bind, _get_k_nearest, ret. rewrite _get_predicted_value_run.
    destruct (y_train self) as [y|]; [|reflexivity].
    destruct (take y _); reflexivity.
Qed.
End Runs.

(** ** Arithmetic of [sum] and [mean] *)

(** The distance between two vectors of the same length. *)
Definition euclidean (u v : vec) : distance :=
  sqrt (sum (map (fun c => c * c) (sub_pointwise u v))).

Lemma fold_left_Qplus_acc l a : fold_left Qplus l a == a + sum l.
Proof.
  unfold sum. revert a.
  induction l as [|x l IH]; intros a; simpl.
  - ring.
  - rewrite IH, (IH (0 + x)). ring.
Qed.

Lemma sum_cons x l : sum (x :: l) == x + sum l.
Proof.
  unfold sum at 1. simpl. rewrite fold_left_Qplus_acc. ring.
Qed.

(** ** Lists, indices and slices *)

Lemma traverse_ok_map {A B} (f : A -> result B) (g : A -> B) l :
  Forall (fun x => f x = Ok (g x)) l -> traverse f l = Ok (map g l).
Proof.
  induction 1 as [|x l Hx _ IH]; simpl.
  - reflexivity.
  - rewrite Hx, IH. reflexivity.
Qed.

Lemma traverse_length {A B} (f : A -> result B) l r :
  traverse f l = Ok r -> length r = length l.
Proof.
  revert r. induction l as [|x l IH]; simpl; intros r H.
  - injection H as <-. reflexivity.
  - destruct (f x); [|discriminate].
    destruct (traverse f l); [|discriminate].
    injection H as <-. simpl. f_equal. auto.
Qed.

Lemma traverse_nth_error {A B} (f : A -> result B) l r i x :
  traverse f l = Ok r -> nth_error l i = Some x ->
  exists y, nth_error r i = Some y /\ f x = Ok y.
Proof.
  revert r i. induction l as [|a l IH]; simpl; intros r i H Hi.
  - destruct i; discriminate.
  - destruct (f a) as [b|] eqn:Ea; [|discriminate].
    destruct (traverse f l) as [r'|]; [|discriminate].
    injection H as <-.
    destruct i as [|i]; simpl in *.
    + injection Hi as <-. eauto.
    + eauto.
Qed.

Lemma euc_same_length u v :
  length u = length v -> euc u v = Ok (euclidean u v).
Proof.
  intros H. unfold euc, broadcast_sub.
  rewrite (proj2 (Nat.eqb_eq _ _) H). reflexivity.
Qed.


Lemma map_nth_seq {A} (l : list A) (a : A) :
  map (fun i => nth i l a) (seq 0 (length l)) = l.
Proof.
  induction l as [|x l IH]; simpl.
  - reflexivity.
  - f_equal. rewrite <- seq_shift, map_map. exact IH.
Qed.

Lemma take_ok {A} (a : list A) (dflt : A) idx :
  Forall (fun i => (i < length a)%nat) idx ->
  take a idx = Ok (map (fun i => nth i a dflt) idx).
Proof.
  intros H. unfold take. apply traverse_ok_map.
  eapply Forall_impl; [|exact H].
  intros i Hi. unfold getitem.
  rewrite (nth_error_nth' a dflt Hi). reflexivity.
Qed.

Lemma slice_to_prefix {A} (a : list A) k :
  exists m, slice_to a k = firstn m a.
Proof. unfold slice_to. destruct (0 <=? k)%Z; eauto. Qed.

Lemma slice_to_all {A} (a : list A) k :
  (Z.of_nat (length a) <= k)%Z -> slice_to a k = a.
Proof.
  intros H. unfold slice_to.
  destruct (Z.leb_spec 0 k); [|lia].
  apply firstn_all2. lia.
Qed.


Lemma Forall_firstn {A} (P : A -> Prop) m l :
  Forall P l -> Forall P (firstn m l).
Proof.
  intros H. rewrite <- (firstn_skipn m l) in H.
  apply Forall_app in H. apply H.
Qed.

Section Argsort_facts.
Context {AS : Argsort}.

Lemma argsort_length ds : length (argsort ds) = length ds.
Proof.
  rewrite (Permutation_length (argsort_perm ds)). apply length_seq.
Qed.

Lemma argsort_in_range ds :
  Forall (fun i => (i < length ds)%nat) (argsort ds).
Proof.
  rewrite Forall_forall. intros i Hi.
  apply (Permutation_in _ (argsort_perm ds)) in Hi.
  apply in_seq in Hi. lia.
Qed.

Lemma argsort_NoDup ds : NoDup (argsort ds).
Proof.
  apply (Permutation_NoDup (Permutation_sym (argsort_perm ds))).
  apply seq_NoDup.
Qed.

End Argsort_facts.

Lemma fit_run X y self : fit X y self = (Ok tt, fitted X y).
Proof. reflexivity. Qed.

(** The training set and query of the specification's end-to-end example. *)
Definition example_X : matrix := [[0; 0]; [10 # 1; 0]; [0; 10 # 1]].
Definition example_y : list Q := [10 # 1; 20 # 1; 30 # 1].
Definition example_query : vec := [1; 0].

Section Predict_facts.
Context {AS : Argsort}.

(** The targets that [predict] averages for the query [q]. *)
Definition selected_targets (X : matrix) (y : list Q) (k : Z) (q : vec)
  : list Q :=
  map (fun i => nth i y 0) (slice_to (argsort (map (euclidean q) X)) k).


End Predict_facts.

(** C4 as stated fails: on the example model, [k = 0] and [k = 4] (one more
    than the three training points) both return a prediction. *)
Lemma predict_k_out_of_range_no_error :
  outcome (predict (AS := stable_argsort) [example_query] 0)
          (after (fit example_X example_y) KNN_new) = Ok [nan] /\
  outcome (predict (AS := stable_argsort) [example_query] 4)
          (after (fit example_X example_y) KNN_new) = Ok [real (60 # 3)].
Proof. split; reflexivity. Qed.


(** C5, as the code has it.  Before [fit] the object has no [X_train]:
    [predict] on at least one query raises the [AttributeError] of the first
    [self.X_train]; on an empty batch the loop body never runs and the empty
    array of predictions is returned. *)
Theorem predict_before_fit :
  forall (AS : Argsort) qs k,
    (qs <> [] -> outcome (predict qs k) KNN_new = Err AttributeError) /\
    (qs = [] -> outcome (predict qs k) KNN_new = Ok []).
Proof.
  intros AS qs k. unfold outcome. rewrite predict_run. simpl. split.
  - intros Hne. destruct qs as [|q qs]; [congruence|]. reflexivity.
  - intros ->. reflexivity.
Qed.

Lemma predict_before_fit_witness :
  [example_query] <> [] /\
  outcome (predict (AS := stable_argsort) [example_query] 3) KNN_new
  = Err AttributeError.
Proof.
  assert (H : [example_query] <> []) by discriminate.
  split; [exact H|].
  exact (proj1 (@predict_before_fit stable_argsort [example_query] 3) H).
Defined.

(** C5 as stated fails: an unfitted object answers the empty batch. *)
Lemma predict_before_fit_empty_batch :
  outcome (predict (AS := stable_argsort) [] 3) KNN_new = Ok [].
Proof. reflexivity. Qed.

(** C6, as the code has it.  [fit] checks nothing and cannot fail: whatever
    the two arguments are, it returns normally and the object then holds
    exactly these two arguments; nothing else is computed or stored. *)
Theorem fit_stores_arguments :
  forall X y self,
    outcome (fit X y) self = Ok tt /\
    after (fit X y) self = mkKNN (Some X) (Some y).
Proof. intros X y self. split; reflexivity. Qed.

(** C6 as stated fails: two feature rows with a single target, and two
    feature rows of different lengths, are accepted and stored as given. *)
Lemma fit_accepts_mismatched_shapes :
  (outcome (fit [[0]; [1]] [5 # 1]) KNN_new = Ok tt /\
   after (fit [[0]; [1]] [5 # 1]) KNN_new
   = mkKNN (Some [[0]; [1]]) (Some [5 # 1])) /\
  (outcome (fit [[0]; [1; 2 # 1]] [5 # 1; 6 # 1]) KNN_new = Ok tt /\
   after (fit [[0]; [1; 2 # 1]] [5 # 1; 6 # 1]) KNN_new
   = mkKNN (Some [[0]; [1; 2 # 1]]) (Some [5 # 1; 6 # 1])).
Proof. repeat split. Qed.

(** C7.  [predict] leaves the object as it found it, stored features and
    targets included, and a second call with the same arguments, made on the
    state the first one left, has the same outcome. *)
Theorem predict_pure :
  forall (AS : Argsort) self qs k,
    after (predict qs k) self = self /\
    X_train (after (predict qs k) self) = X_train self /\
    y_train (after (predict qs k) self) = y_train self /\
    outcome (predict qs k) (after (predict qs k) self)
    = outcome (predict qs k) self.
Proof.
  intros AS self qs k.
  assert (H : after (predict qs k) self = self)
    by (unfold after; rewrite predict_run; reflexivity).
  rewrite H. repeat split.
Qed.



(** ** Exact distances *)

(** Index [j] is strictly closer to the query [q] than every other training
    row, in exact arithmetic: the scan succeeds and the [j]-th distance is
    smaller than all the others. *)
Definition strictly_closest (q : vec) (X : matrix) (j : nat) : Prop :=
  exists ds,
    traverse (euc q) X = Ok ds /\
    (j < length ds)%nat /\
    forall i, (i < length ds)%nat -> i <> j ->
              dist_lt (nth j ds (sqrt 0)) (nth i ds (sqrt 0)).

Lemma square_nonneg (c : Q) : 0 <= c * c.
Proof.
  destruct c as [n p]. unfold Qle. simpl.
  rewrite Z.mul_1_r. apply Z.square_nonneg.
Qed.

Lemma sum_squares_nonneg w : 0 <= sum (map (fun c => c * c) w).
Proof.
  induction w as [|c w IH]; simpl.
  - apply Qle_refl.
  - rewrite sum_cons.
    setoid_replace 0 with (0 + 0) at 1 by ring.
    apply Qplus_le_compat; [apply square_nonneg | exact IH].
Qed.

Lemma euc_nonneg u v d : euc u v = Ok d -> 0 <= radicand d.
Proof.
  unfold euc. destruct (broadcast_sub u v); [|discriminate].
  intros H. injection H as <-. apply sum_squares_nonneg.
Qed.

(** ** Sorted lists *)


Lemma sorted_perm_unique {A} (R : A -> A -> Prop) l1 :
  forall l2,
    Permutation l1 l2 ->
    StronglySorted R l1 -> StronglySorted R l2 ->
    (forall a b, In a l1 -> In b l1 -> R a b -> R b a -> a = b) ->
    l1 = l2.
Proof.
  induction l1 as [|a l1 IH]; intros l2 Hp H1 H2 Hanti.
  - apply Permutation_nil in Hp. congruence.
  - destruct l2 as [|b l2];
      [apply Permutation_sym, Permutation_nil in Hp; discriminate|].
    inversion H1 as [|? ? Hs1 Hall1]; subst.
    inversion H2 as [|? ? Hs2 Hall2]; subst.
    rewrite Forall_forall in Hall1, Hall2.
    assert (E : a = b).
    { assert (Ha : In a (b :: l2))
        by (apply (Permutation_in _ Hp); left; reflexivity).
      assert (Hb : In b (a :: l1))
        by (apply (Permutation_in _ (Permutation_sym Hp)); left; reflexivity).
      destruct Ha as [Ha|Ha]; [congruence|].
      destruct Hb as [Hb|Hb]; [congruence|].
      apply Hanti; [left; reflexivity | right; exact Hb | auto | auto]. }
    subst b. f_equal.
    apply IH; try assumption.
    + eapply Permutation_cons_inv. exact Hp.
    + intros x z Hx Hz. apply Hanti; right; assumption.
Qed.


(** * Further properties of the class *)

(** ** The distance *)

(** Two outcomes of [euc] agree: the same number, or the same exception. *)
Definition same_distance (r1 r2 : result distance) : Prop :=
  match r1, r2 with
  | Ok a, Ok b => radicand a == radicand b
  | Err e1, Err e2 => e1 = e2
  | _, _ => False
  end.

Lemma sum_squares_sub_sym u :
  forall v,
    sum (map (fun c => c * c) (sub_pointwise u v)) ==
    sum (map (fun c => c * c) (sub_pointwise v u)).
Proof.
  induction u as [|a u IH]; intros [|b v]; simpl; try reflexivity.
  rewrite !sum_cons, (IH v). ring.
Qed.

Lemma sum_squares_scalar_sym a v :
  sum (map (fun c => c * c) (map (fun b => a - b) v)) ==
  sum (map (fun c => c * c) (map (fun b => b - a) v)).
Proof.
  induction v as [|b v IH]; simpl; [reflexivity|].
  rewrite !sum_cons, IH. ring.
Qed.

(** X1.  The distance is symmetric: [euc u v] and [euc v u] give the same
    number, broadcasting included, or raise the same exception. *)
Theorem euc_symmetric : forall u v, same_distance (euc u v) (euc v u).
Proof.
  intros u v. unfold euc, broadcast_sub.
  destruct (Nat.eqb_spec (length u) (length v)) as [E|N].
  - rewrite (proj2 (Nat.eqb_eq (length v) (length u)) (eq_sym E)).
    simpl. apply sum_squares_sub_sym.
  - rewrite (proj2 (Nat.eqb_neq (length v) (length u)) (not_eq_sym N)).
    destruct u as [|a [|a' u]]; destruct v as [|b [|b' v]]; simpl in *;
      try reflexivity; try (exfalso; apply N; reflexivity).
    + apply (sum_squares_scalar_sym a (b :: b' :: v)).
    + symmetry. apply (sum_squares_scalar_sym b (a :: a' :: u)).
Qed.

Lemma sum_squares_zero w :
  sum (map (fun c => c * c) w) == 0 -> Forall (fun c => c == 0) w.
Proof.
  induction w as [|c w IH]; simpl; intros H; [constructor|].
  rewrite sum_cons in H.
  pose proof (square_nonneg c) as Hc.
  pose proof (sum_squares_nonneg w) as Hw.
  assert (Hc0 : c * c == 0) by lra.
  assert (Hw0 : sum (map (fun c => c * c) w) == 0) by lra.
  constructor; [|apply IH, Hw0].
  destruct (Qmult_integral _ _ Hc0); assumption.
Qed.

Lemma euclidean_zero_iff u :
  forall v, length u = length v ->
            (radicand (euclidean u v) == 0 <-> Forall2 Qeq u v).
Proof.
  unfold euclidean. simpl.
  induction u as [|a u IH]; intros [|b v] Hlen; try discriminate; simpl.
  - split; [constructor | reflexivity].
  - injection Hlen as Hlen. split.
    + intros H. apply (sum_squares_zero ((a - b) :: sub_pointwise u v)) in H.
      inversion H as [|? ? Hab Hrest]; subst.
      constructor; [lra|].
      apply (IH v Hlen).
      clear - Hrest. induction Hrest as [|c w Hc _ IHw]; simpl.
      * reflexivity.
      * rewrite sum_cons, IHw, Hc. ring.
    + intros H. inversion H as [|? ? ? ? Hab Hrest]; subst.
      rewrite sum_cons, (proj2 (IH v Hlen) Hrest), Hab. ring.
Qed.

(** X2.  A distance is never negative, and between two vectors of the same
    length it is zero exactly when they coincide, component by component. *)
Theorem euc_zero_iff_equal :
  forall u v d,
    euc u v = Ok d ->
    0 <= radicand d /\
    (length u = length v -> (radicand d == 0 <-> Forall2 Qeq u v)).
Proof.
  intros u v d H. split; [apply (euc_nonneg _ _ H)|].
  intros Hlen. rewrite (euc_same_length _ _ Hlen) in H.
  injection H as <-. apply euclidean_zero_iff, Hlen.
Qed.

Lemma euc_zero_iff_equal_witness :
  euc [1; 0] [0; 0] = Ok (sqrt 1) /\
  0 <= radicand (sqrt 1) /\
  (length [1; 0] = length [0; 0] ->
   (radicand (sqrt 1) == 0 <-> Forall2 Qeq [1; 0] [0; 0])).
Proof.
  assert (H : euc [1; 0] [0; 0] = Ok (sqrt 1)) by reflexivity.
  split; [exact H|].
  exact (@euc_zero_iff_equal [1; 0] [0; 0] (sqrt 1) H).
Defined.



(** ** Shapes that [fit] let through *)

Lemma traverse_ext_in {A B} (f g : A -> result B) l :
  Forall (fun x => f x = g x) l -> traverse f l = traverse g l.
Proof.
  induction 1 as [|x l Hx _ IH]; simpl; [reflexivity|].
  rewrite Hx, IH. reflexivity.
Qed.

Lemma euc_mismatch u v :
  length u <> length v -> length u <> 1%nat -> length v <> 1%nat ->
  euc u v = Err ValueError.
Proof.
  intros N Hu Hv. unfold euc, broadcast_sub.
  rewrite (proj2 (Nat.eqb_neq _ _) N).
  destruct u as [|a [|a' u]]; destruct v as [|b [|b' v]]; simpl in *;
    try reflexivity; congruence.
Qed.

Lemma sub_pointwise_repeat a row :
  sub_pointwise (repeat a (length row)) row = map (fun b => a - b) row.
Proof.
  induction row as [|b row IH]; simpl; [reflexivity|].
  rewrite IH. reflexivity.
Qed.

Lemma euc_scalar a row : euc [a] row = euc (repeat a (length row)) row.
Proof.
  rewrite (@euc_same_length (repeat a (length row)) row)
    by apply repeat_length.
  unfold euclidean. rewrite sub_pointwise_repeat.
  unfold euc, broadcast_sub.
  destruct (Nat.eqb_spec (length [a]) (length row)) as [E|N].
  - destruct row as [|b [|b' row]]; try discriminate. reflexivity.
  - reflexivity.
Qed.


Lemma take_app_in_range {A} (a extra : list A) idx :
  Forall (fun i => (i < length a)%nat) idx ->
  take (a ++ extra) idx = take a idx.
Proof.
  intros H. unfold take. apply traverse_ext_in.
  eapply Forall_impl; [|exact H].
  intros i Hi. unfold getitem. rewrite nth_error_app1 by exact Hi.
  reflexivity.
Qed.

Lemma slice_in_range {AS : Argsort} ds k :
  Forall (fun i => (i < length ds)%nat) (slice_to (argsort ds) k).
Proof.
  destruct (slice_to_prefix (argsort ds) k) as [m ->].
  apply Forall_firstn, argsort_in_range.
Qed.

(** X4.  [predict] does not check the dimensionality of the queries itself:
    when the query rows have a length that is neither the training one nor
    one, the first distance computation raises [ValueError], and no
    prediction is returned. *)
Theorem predict_query_dimension_mismatch :
  forall (AS : Argsort) d d' X y qs k self,
    has_dim d X -> has_dim d' qs ->
    X <> [] -> qs <> [] ->
    d' <> d -> d' <> 1%nat -> d <> 1%nat ->
    outcome (predict qs k) (after (fit X y) self) = Err ValueError.
Proof.
  intros AS d d' X y qs k self HX Hqs HXne Hqne Hdd Hd' Hd.
  unfold outcome, after. rewrite fit_run, predict_run. simpl.
  destruct qs as [|q qs]; [congruence|].
  destruct X as [|row X]; [congruence|].
  inversion HX as [|? ? Hrow _]; subst.
  inversion Hqs as [|? ? Hq _]; subst.
  simpl. unfold predict_point, fitted. simpl.
  rewrite euc_mismatch by congruence. reflexivity.
Qed.

Lemma predict_query_dimension_mismatch_witness :
  has_dim 2 example_X /\ has_dim 3 [[1; 0; 3 # 1]] /\
  example_X <> [] /\ [[1; 0; 3 # 1]] <> [] /\
  3%nat <> 2%nat /\ 3%nat <> 1%nat /\ 2%nat <> 1%nat /\
  outcome (predict (AS := stable_argsort) [[1; 0; 3 # 1]] 3)
          (after (fit example_X example_y) KNN_new) = Err ValueError.
Proof.
  assert (H1 : has_dim 2 example_X) by (repeat constructor).
  assert (H2 : has_dim 3 [[1; 0; 3 # 1]]) by (repeat constructor).
  assert (H3 : example_X <> []) by discriminate.
  assert (H4 : [[1; 0; 3 # 1]] <> []) by discriminate.
  assert (H5 : 3%nat <> 2%nat) by lia.
  assert (H6 : 3%nat <> 1%nat) by lia.
  assert (H7 : 2%nat <> 1%nat) by lia.
  repeat (split; [assumption|]).
  exact (@predict_query_dimension_mismatch stable_argsort 2%nat 3%nat
           example_X example_y [[1; 0; 3 # 1]] 3%Z KNN_new
           H1 H2 H3 H4 H5 H6 H7).
Defined.

(** X5.  A query of a single component is not rejected either: the
    subtraction broadcasts it, and it is answered exactly as the query that
    repeats this component in every dimension. *)
Theorem predict_scalar_query_broadcast :
  forall (AS : Argsort) d X y (cs : list Q) k self,
    has_dim d X ->
    outcome (predict (map (fun c => [c]) cs) k) (after (fit X y) self) =
    outcome (predict (map (fun c => repeat c d) cs) k) (after (fit X y) self).
Proof.
  intros AS d X y cs k self HX.
  unfold outcome, after. rewrite fit_run, !predict_run. simpl.
  induction cs as [|c cs IH]; simpl; [reflexivity|].
  rewrite IH.
  replace (predict_point (fitted X y) k [c])
    with (predict_point (fitted X y) k (repeat c d)); [reflexivity|].
  unfold predict_point, fitted. simpl.
  rewrite (@traverse_ext_in _ _ (euc (repeat c d)) (euc [c]) X); [reflexivity|].
  eapply Forall_impl; [|exact HX].
  intros row Hrow. rewrite euc_scalar, Hrow. reflexivity.
Qed.

Lemma predict_scalar_query_broadcast_witness :
  has_dim 2 example_X /\
  outcome (predict (AS := stable_argsort) (map (fun c => [c]) [1]) 1)
          (after (fit example_X example_y) KNN_new) =
  outcome (predict (AS := stable_argsort) (map (fun c => repeat c 2) [1]) 1)
          (after (fit example_X example_y) KNN_new).
Proof.
  assert (H1 : has_dim 2 example_X) by (repeat constructor).
  split; [exact H1|].
  exact (@predict_scalar_query_broadcast stable_argsort 2%nat
           example_X example_y [1] 1%Z KNN_new H1).
Defined.



(** X7.  More targets than feature rows go unnoticed for good: the targets
    beyond the last row are never read, and every call is answered as if
    they had not been passed. *)
Theorem predict_surplus_targets_ignored :
  forall (AS : Argsort) X y extra qs k self,
    length X = length y ->
    outcome (predict qs k) (after (fit X (y ++ extra)) self) =
    outcome (predict qs k) (after (fit X y) self).
Proof.
  intros AS X y extra qs k self Hlen.
  unfold outcome, after. rewrite !fit_run, !predict_run. simpl.
  apply traverse_ext_in, Forall_forall. intros q _.
  unfold predict_point, fitted. simpl.
  destruct (traverse (euc q) X) as [ds|e] eqn:E; [|reflexivity].
  rewrite take_app_in_range; [reflexivity|].
  rewrite <- Hlen, <- (traverse_length _ _ E).
  apply slice_in_range.
Qed.

Lemma predict_surplus_targets_ignored_witness :
  length example_X = length example_y /\
  outcome (predict (AS := stable_argsort) [example_query] 2)
          (after (fit example_X (example_y ++ [99 # 1])) KNN_new) =
  outcome (predict (AS := stable_argsort) [example_query] 2)
          (after (fit example_X example_y) KNN_new).
Proof.
  assert (H1 : length example_X = length example_y) by reflexivity.
  split; [exact H1|].
  exact (@predict_surplus_targets_ignored stable_argsort example_X example_y
           [99 # 1] [example_query] 2%Z KNN_new H1).
Defined.

(** ** The neighbour count *)

Lemma slice_to_negative {A} (a : list A) j :
  (1 <= j)%Z ->
  slice_to a (- j) = slice_to a (Z.max 0 (Z.of_nat (length a) - j)).
Proof.
  intros Hj. unfold slice_to.
  destruct (Z.leb_spec 0 (- j)); [lia|].
  destruct (Z.leb_spec 0 (Z.max 0 (Z.of_nat (length a) - j))); [|lia].
  f_equal. lia.
Qed.

(** X8.  A negative [k] is not rejected: the slice [[:k]] then drops the
    [-k] farthest points, so [predict] with [k = -j] answers as [predict]
    with [k = n_train - j] (as [k = 0] once [j] exceeds [n_train]). *)
Theorem predict_negative_k :
  forall (AS : Argsort) X y qs j self,
    (1 <= j)%Z ->
    outcome (predict qs (- j)) (after (fit X y) self) =
    outcome (predict qs (Z.max 0 (Z.of_nat (length X) - j)))
            (after (fit X y) self).
Proof.
  intros AS X y qs j self Hj.
  unfold outcome, after. rewrite !fit_run, !predict_run. simpl.
  apply traverse_ext_in, Forall_forall. intros q _.
  unfold predict_point, fitted. simpl.
  destruct (traverse (euc q) X) as [ds|e] eqn:E; [|reflexivity].
  rewrite (slice_to_negative _ Hj), argsort_length, (traverse_length _ _ E).
  reflexivity.
Qed.

Lemma predict_negative_k_witness :
  (1 <= 1)%Z /\
  outcome (predict (AS := stable_argsort) [example_query] (- (1)))
          (after (fit example_X example_y) KNN_new) =
  outcome (predict (AS := stable_argsort) [example_query]
                   (Z.max 0 (Z.of_nat (length example_X) - 1)))
          (after (fit example_X example_y) KNN_new).
Proof.
  assert (H1 : (1 <= 1)%Z) by lia.
  split; [exact H1|].
  exact (@predict_negative_k stable_argsort example_X example_y
           [example_query] 1%Z KNN_new H1).
Defined.

(** X9.  Neighbourhoods are nested: the indices selected for [k] are the
    first [k] of the indices selected for any larger [k']. *)
Theorem k_nearest_nested :
  forall (AS : Argsort) ds k k' self,
    (0 <= k <= k')%Z ->
    exists sel sel',
      outcome (_get_k_nearest ds k) self = Ok sel /\
      outcome (_get_k_nearest ds k') self = Ok sel' /\
      sel = firstn (Z.to_nat k) sel'.
Proof.
  intros AS ds k k' self Hk.
  do 2 eexists. split; [reflexivity|]. split; [reflexivity|].
  unfold slice_to.
  destruct (Z.leb_spec 0 k); [|lia].
  destruct (Z.leb_spec 0 k'); [|lia].
  rewrite firstn_firstn. f_equal. lia.
Qed.

Lemma k_nearest_nested_witness :
  (0 <= 1 <= 2)%Z /\
  exists sel sel',
    outcome (_get_k_nearest (AS := stable_argsort)
                            [sqrt 1; sqrt (81 # 1); sqrt (101 # 1)] 1)
            KNN_new = Ok sel /\
    outcome (_get_k_nearest (AS := stable_argsort)
                            [sqrt 1; sqrt (81 # 1); sqrt (101 # 1)] 2)
            KNN_new = Ok sel' /\
    sel = firstn (Z.to_nat 1) sel'.
Proof.
  assert (H1 : (0 <= 1 <= 2)%Z) by lia.
  split; [exact H1|].
  exact (@k_nearest_nested stable_argsort
           [sqrt 1; sqrt (81 # 1); sqrt (101 # 1)] 1%Z 2%Z KNN_new H1).
Defined.

(** X11.  A model fitted on no training row answers [nan] to every query,
    for every [k] and whatever targets were passed: no distance is computed
    and nothing is raised. *)
Theorem predict_empty_training_set :
  forall (AS : Argsort) y qs k self,
    outcome (predict qs k) (after (fit [] y) self)
    = Ok (map (fun _ => nan) qs).
Proof.
  intros AS y qs k self.
  unfold outcome, after. rewrite fit_run, predict_run. simpl.
  apply traverse_ok_map, Forall_forall. intros q _.
  unfold predict_point, fitted. simpl.
  pose proof (argsort_perm []) as Hp. simpl in Hp.
  apply Permutation_sym, Permutation_nil in Hp. rewrite Hp.
  destruct (slice_to_prefix (@nil nat) k) as [m ->].
  rewrite firstn_nil. reflexivity.
Qed.

(** ** Maps, slices and pairs *)

Lemma slice_to_map {A B} (g : A -> B) l k :
  slice_to (map g l) k = map g (slice_to l k).
Proof.
  unfold slice_to. rewrite length_map.
  destruct (0 <=? k)%Z; apply firstn_map.
Qed.

Lemma StronglySorted_map {A B} (R : B -> B -> Prop) (g : A -> B) l :
  StronglySorted (fun a b => R (g a) (g b)) l -> StronglySorted R (map g l).
Proof.
  induction 1 as [|a l _ IH Hall]; simpl; constructor.
  - exact IH.
  - apply Forall_map. exact Hall.
Qed.

Lemma combine_map_l {A B C} (f : A -> B) (X : list A) :
  forall y : list C,
    combine (map f X) y = map (fun p => (f (fst p), snd p)) (combine X y).
Proof.
  induction X as [|x X IH]; intros [|t y]; simpl; try reflexivity.
  rewrite IH. reflexivity.
Qed.

Lemma map_fst_combine_same_length {A B} (X : list A) :
  forall y : list B, length X = length y -> map fst (combine X y) = X.
Proof.
  induction X as [|x X IH]; intros [|t y] H; simpl; try discriminate.
  - reflexivity.
  - injection H as H. rewrite (IH y H). reflexivity.
Qed.

(** * The sweep over the number of neighbours

    The last cells of the notebook fill an array [test_errors] with one
    validation error per [k] in [range(1, 30)] and keep the [k] at
    [np.argmin(test_errors)] with the error [np.min(test_errors)].  The
    error of one [k], the root of scikit-learn's mean squared error of a
    [KNeighborsRegressor] fitted on the training data, is a parameter here:
    a square root of a rational, or the exception the library raised. *)

Definition dist_ltb (a b : distance) : bool := negb (dist_leb b a).

(** [np.argmin] : the index of the first occurrence of the minimum;
    [ValueError] on an empty array. *)
Fixpoint argmin_from (best : distance) (besti i : nat) (l : list distance)
  : nat :=
  match l with
  | [] => besti
  | x :: l' =>
      if dist_ltb x best
      then argmin_from x i (S i) l'
      else argmin_from best besti (S i) l'
  end.

Definition argmin (l : list distance) : result nat :=
  match l with
  | [] => Err ValueError
  | x :: l' => Ok (argmin_from x 0 1 l')
  end.

(** [np.min] : the minimum; [ValueError] on an empty array. *)
Definition amin (l : list distance) : result distance :=
  match l with
  | [] => Err ValueError
  | x :: l' => Ok (fold_left (fun m d => if dist_ltb d m then d else m) l' x)
  end.

(** [range(1, 30)] *)
Definition ks : list Z := map Z.of_nat (seq 1 29).

Section Sweep.
Variable validation_rmse : Z -> result distance.

(** [for i, k in enumerate(ks): ... test_errors[i] = ...] *)
Fixpoint sweep_loop (i : nat) (ks : list Z) (test_errors : list distance)
  : result (list distance) :=
  match ks with
  | [] => Ok test_errors
  | k :: ks' =>
      match validation_rmse k with
      | Err e => Err e
      | Ok r =>
          match setitem test_errors i r with
          | Err e => Err e
          | Ok test_errors' => sweep_loop (S i) ks' test_errors'
          end
      end
  end.

Definition sweep : result (list distance) :=
  let test_errors := zeros (sqrt 0) (length ks) in
  sweep_loop 0 ks test_errors.

(** [optimal_k] and [optimal_error] *)
Definition optimal : result (Z * distance) :=
  match sweep with
  | Err e => Err e
  | Ok test_errors =>
      match argmin test_errors with
      | Err e => Err e
      | Ok i =>
          match getitem ks i with
          | Err e => Err e
          | Ok optimal_k =>
              match amin test_errors with
              | Err e => Err e
              | Ok optimal_error => Ok (optimal_k, optimal_error)
              end
          end
      end
  end.

Lemma sweep_loop_fill l :
  forall pre rest,
    length rest = length l ->
    sweep_loop (length pre) l (pre ++ rest) =
    match traverse validation_rmse l with
    | Ok vs => Ok (pre ++ vs)
    | Err e => Err e
    end.
Proof.
  induction l as [|k l IH]; intros pre rest Hlen.
  - destruct rest; [|discriminate]. reflexivity.
  - destruct rest as [|r rest]; [discriminate|].
    injection Hlen as Hlen. simpl.
    destruct (validation_rmse k) as [v|e]; [|reflexivity].
    rewrite setitem_app.
    replace (S (length pre)) with (length (pre ++ [v]))
      by (rewrite length_app; simpl; lia).
    replace (pre ++ v :: rest) with ((pre ++ [v]) ++ rest)
      by (rewrite <- app_assoc; reflexivity).
    rewrite (IH _ _ Hlen).
    destruct (traverse validation_rmse l); [|reflexivity].
    rewrite <- app_assoc. reflexivity.
Qed.

Lemma sweep_run : sweep = traverse validation_rmse ks.
Proof.
  unfold sweep.
  pose proof (sweep_loop_fill ks [] (zeros (sqrt 0) (length ks))
                (repeat_length _ _)) as H.
  etransitivity; [exact H|].
  destruct (traverse validation_rmse ks); reflexivity.
Qed.
End Sweep.

Lemma dist_ltb_true a b : dist_ltb a b = true -> dist_lt a b.
Proof.
  unfold dist_ltb, dist_leb, dist_lt. intros H.
  apply negb_true_iff in H. apply Qnot_le_lt. intros Hle.
  apply Qle_bool_iff in Hle. congruence.
Qed.

Lemma dist_ltb_false a b : dist_ltb a b = false -> dist_le b a.
Proof.
  unfold dist_ltb, dist_leb, dist_le. intros H.
  apply negb_false_iff in H. apply Qle_bool_imp_le, H.
Qed.

(** The scan for the minimum, started after the prefix [pre] whose first
    minimum [best] sits at [besti]. *)
Lemma argmin_from_spec l :
  forall pre best besti,
    nth_error pre besti = Some best ->
    (forall j x, nth_error pre j = Some x -> dist_le best x) ->
    (forall j x, (j < besti)%nat -> nth_error pre j = Some x ->
                 dist_lt best x) ->
    let r := argmin_from best besti (length pre) l in
    let m := fold_left (fun m d => if dist_ltb d m then d else m) l best in
    nth_error (pre ++ l) r = Some m /\
    (forall j x, nth_error (pre ++ l) j = Some x -> dist_le m x) /\
    (forall j x, (j < r)%nat -> nth_error (pre ++ l) j = Some x ->
                 dist_lt m x).
Proof.
  induction l as [|x l IH]; intros pre best besti Hb Hle Hlt; simpl.
  - rewrite app_nil_r. auto.
  - replace (pre ++ x :: l) with ((pre ++ [x]) ++ l)
      by (rewrite <- app_assoc; reflexivity).
    replace (S (length pre)) with (length (pre ++ [x]))
      by (rewrite length_app; simpl; lia).
    assert (Hsplit : forall j z, nth_error (pre ++ [x]) j = Some z ->
                       nth_error pre j = Some z \/
                       (j = length pre /\ z = x)).
    { intros j z Hj.
      destruct (Nat.lt_ge_cases j (length pre)) as [Hjl|Hjl].
      - left. rewrite nth_error_app1 in Hj by exact Hjl. exact Hj.
      - right. rewrite nth_error_app2 in Hj by exact Hjl.
        destruct (j - length pre)%nat as [|n] eqn:E; simpl in Hj.
        + injection Hj as <-. split; [lia | reflexivity].
        + destruct n; discriminate. }
    destruct (dist_ltb x best) eqn:E.
    + apply dist_ltb_true in E. apply IH.
      * rewrite nth_error_app2 by lia. rewrite Nat.sub_diag. reflexivity.
      * intros j z Hj. destruct (Hsplit j z Hj) as [Hp|[_ ->]].
        -- unfold dist_le, dist_lt in *.
           apply Qlt_le_weak. eapply Qlt_le_trans; [exact E|].
           apply (Hle j z Hp).
        -- unfold dist_le. apply Qle_refl.
      * intros j z Hjr Hj. destruct (Hsplit j z Hj) as [Hp|[-> _]]; [|lia].
        unfold dist_le, dist_lt in *.
        eapply Qlt_le_trans; [exact E|]. apply (Hle j z Hp).
    + apply dist_ltb_false in E. apply IH.
      * rewrite nth_error_app1; [exact Hb|].
        apply nth_error_Some. congruence.
      * intros j z Hj. destruct (Hsplit j z Hj) as [Hp|[_ ->]].
        -- apply (Hle j z Hp).
        -- exact E.
      * intros j z Hjr Hj. destruct (Hsplit j z Hj) as [Hp|[-> _]].
        -- apply (Hlt j z Hjr Hp).
        -- assert (besti < length pre)%nat
             by (apply nth_error_Some; congruence).
           lia.
Qed.

Lemma argmin_amin_spec l :
  l <> [] ->
  exists r m,
    argmin l = Ok r /\ amin l = Ok m /\
    nth_error l r = Some m /\
    (forall j x, nth_error l j = Some x -> dist_le m x) /\
    (forall j x, (j < r)%nat -> nth_error l j = Some x -> dist_lt m x).
Proof.
  intros Hne. destruct l as [|x l]; [congruence|].
  do 2 eexists. split; [reflexivity|]. split; [reflexivity|].
  apply (argmin_from_spec l [x] (besti := 0)).
  - reflexivity.
  - intros j z Hj. destruct j as [|[|j]]; simpl in Hj; try discriminate.
    injection Hj as <-. unfold dist_le. apply Qle_refl.
  - intros j z Hj. lia.
Qed.

Lemma nth_error_range n j k :
  nth_error (map Z.of_nat (seq 1 n)) j = Some k <->
  ((j < n)%nat /\ k = Z.of_nat (S j)).
Proof.
  assert (Hlen : length (map Z.of_nat (seq 1 n)) = n)
    by (rewrite length_map; apply length_seq).
  split.
  - intros H.
    assert (Hj : (j < n)%nat).
    { rewrite <- Hlen. apply nth_error_Some. congruence. }
    split; [exact Hj|].
    rewrite (nth_error_nth' _ 0%Z) in H by (rewrite Hlen; exact Hj).
    injection H as <-.
    change 0%Z with (Z.of_nat 0). rewrite map_nth, seq_nth by exact Hj.
    reflexivity.
  - intros [Hj ->].
    rewrite (nth_error_nth' _ 0%Z) by (rewrite Hlen; exact Hj).
    change 0%Z with (Z.of_nat 0). rewrite map_nth, seq_nth by exact Hj.
    reflexivity.
Qed.

Lemma nth_error_ks j k :
  nth_error ks j = Some k <-> ((j < 29)%nat /\ k = Z.of_nat (S j)).
Proof. apply nth_error_range. Qed.

Lemma traverse_ok_exists {A B} (f : A -> result B) l :
  Forall (fun x => exists y, f x = Ok y) l -> exists r, traverse f l = Ok r.
Proof.
  induction 1 as [|x l [y Hy] _ [r IH]]; simpl.
  - eauto.
  - rewrite Hy, IH. eauto.
Qed.

(** X15.  When the validation error can be computed for every [k] from 1
    to 29, the sweep keeps the smallest [k] whose error is minimal:
    [optimal_error] is the error of [optimal_k], no [k] of the range has a
    smaller error, and every [k] below [optimal_k] has a strictly larger
    one. *)
Theorem sweep_keeps_first_minimum :
  forall validation_rmse : Z -> result distance,
    (forall k, (1 <= k <= 29)%Z -> exists e, validation_rmse k = Ok e) ->
    exists optimal_k optimal_error,
      optimal validation_rmse = Ok (optimal_k, optimal_error) /\
      (1 <= optimal_k <= 29)%Z /\
      validation_rmse optimal_k = Ok optimal_error /\
      (forall k e, (1 <= k <= 29)%Z -> validation_rmse k = Ok e ->
                   dist_le optimal_error e) /\
      (forall k e, (1 <= k < optimal_k)%Z -> validation_rmse k = Ok e ->
                   dist_lt optimal_error e).
Proof.
  intros rmse Hall.
  assert (Htr : exists errs, traverse rmse ks = Ok errs).
  { apply traverse_ok_exists, Forall_forall. intros k Hk.
    apply In_nth_error in Hk. destruct Hk as [j Hj].
    apply nth_error_ks in Hj. destruct Hj as [Hj ->].
    apply Hall. lia. }
  destruct Htr as [errs Htr].
  pose proof (traverse_length _ _ Htr) as Hlen.
  assert (Hne : errs <> []) by (intros ->; discriminate Hlen).
  destruct (argmin_amin_spec Hne) as (r & m & Hargmin & Hamin & Hr & Hle & Hlt).
  assert (Hr29 : (r < 29)%nat).
  { change 29%nat with (length ks). rewrite <- Hlen.
    apply nth_error_Some. congruence. }
  assert (Hkr : nth_error ks r = Some (Z.of_nat (S r)))
    by (apply nth_error_ks; auto).
  assert (Hat : forall j k e, nth_error ks j = Some k -> rmse k = Ok e ->
                              nth_error errs j = Some e).
  { intros j k e Hj He.
    destruct (traverse_nth_error _ _ _ Htr Hj) as (y & Hy & Hfy).
    congruence. }
  exists (Z.of_nat (S r)), m.
  split.
  { unfold optimal. rewrite sweep_run, Htr, Hargmin.
    unfold getitem. rewrite Hkr, Hamin. reflexivity. }
  split; [lia|].
  split.
  { destruct (traverse_nth_error _ _ _ Htr Hkr) as (y & Hy & Hfy).
    congruence. }
  split.
  - intros k e Hk He.
    apply (Hle (Z.to_nat k - 1)%nat).
    apply (Hat _ k); [|exact He].
    apply nth_error_ks. split; lia.
  - intros k e Hk He.
    apply (Hlt (Z.to_nat k - 1)%nat); [lia|].
    apply (Hat _ k); [|exact He].
    apply nth_error_ks. split; lia.
Qed.

Lemma sweep_keeps_first_minimum_witness :
  (forall k, (1 <= k <= 29)%Z ->
             exists e, (fun k => Ok (sqrt (inject_Z ((k - 5) * (k - 5))))) k
                       = Ok e) /\
  exists optimal_k optimal_error,
    optimal (fun k => Ok (sqrt (inject_Z ((k - 5) * (k - 5)))))
    = Ok (optimal_k, optimal_error) /\
    (1 <= optimal_k <= 29)%Z /\
    (fun k => Ok (sqrt (inject_Z ((k - 5) * (k - 5))))) optimal_k
    = Ok optimal_error /\
    (forall k e, (1 <= k <= 29)%Z ->
                 (fun k => Ok (sqrt (inject_Z ((k - 5) * (k - 5))))) k = Ok e ->
                 dist_le optimal_error e) /\
    (forall k e, (1 <= k < optimal_k)%Z ->
                 (fun k => Ok (sqrt (inject_Z ((k - 5) * (k - 5))))) k = Ok e ->
                 dist_lt optimal_error e).
Proof.
  assert (H : forall k, (1 <= k <= 29)%Z ->
                exists e, (fun k => Ok (sqrt (inject_Z ((k - 5) * (k - 5))))) k
                          = Ok e)
    by (intros k _; eexists; reflexivity).
  split; [exact H|].
  exact (@sweep_keeps_first_minimum
           (fun k => Ok (sqrt (inject_Z ((k - 5) * (k - 5))))) H).
Defined.

Lemma traverse_first_error {A B} (f : A -> result B) l :
  forall j x e,
    nth_error l j = Some x -> f x = Err e ->
    (forall i y, (i < j)%nat -> nth_error l i = Some y ->
                 exists v, f y = Ok v) ->
    traverse f l = Err e.
Proof.
  induction l as [|a l IH]; intros j x e Hj He Hbefore.
  - destruct j; discriminate.
  - destruct j as [|j]; simpl in *.
    + injection Hj as ->. rewrite He. reflexivity.
    + destruct (Hbefore 0%nat a (Nat.lt_0_succ j) eq_refl) as [v Hv].
      rewrite Hv.
      rewrite (IH j x e Hj He); [reflexivity|].
      intros i y Hi Hy. apply (Hbefore (S i) y); [lia | exact Hy].
Qed.

(** X16.  The sweep stops at the first [k] whose validation error cannot be
    computed: the exception raised there is the outcome of the loop, and no
    [optimal_k] is chosen. *)
Theorem sweep_stops_at_first_failure :
  forall (validation_rmse : Z -> result distance) k0 e0,
    (1 <= k0 <= 29)%Z ->
    validation_rmse k0 = Err e0 ->
    (forall k, (1 <= k < k0)%Z -> exists e, validation_rmse k = Ok e) ->
    sweep validation_rmse = Err e0 /\ optimal validation_rmse = Err e0.
Proof.
  intros rmse k0 e0 Hk0 He0 Hbefore.
  assert (Hs : sweep rmse = Err e0).
  { rewrite sweep_run.
    apply (@traverse_first_error _ _ rmse ks (Z.to_nat k0 - 1)%nat k0 e0).
    - apply nth_error_ks. split; lia.
    - exact He0.
    - intros i k Hi Hk. apply nth_error_ks in Hk. destruct Hk as [_ ->].
      apply Hbefore. lia. }
  split; [exact Hs|].
  unfold optimal. rewrite Hs. reflexivity.
Qed.

Lemma sweep_stops_at_first_failure_witness :
  (1 <= 4 <= 29)%Z /\
  (fun k => if (k <? 4)%Z then Ok (sqrt (inject_Z k)) else Err ValueError) 4%Z
  = Err ValueError /\
  (forall k, (1 <= k < 4)%Z ->
             exists e,
               (fun k => if (k <? 4)%Z then Ok (sqrt (inject_Z k))
                         else Err ValueError) k = Ok e) /\
  sweep (fun k => if (k <? 4)%Z then Ok (sqrt (inject_Z k))
                  else Err ValueError) = Err ValueError /\
  optimal (fun k => if (k <? 4)%Z then Ok (sqrt (inject_Z k))
                    else Err ValueError) = Err ValueError.
Proof.
  assert (H1 : (1 <= 4 <= 29)%Z) by lia.
  assert (H2 : (fun k => if (k <? 4)%Z then Ok (sqrt (inject_Z k))
                         else Err ValueError) 4%Z = Err ValueError)
    by reflexivity.
  assert (H3 : forall k, (1 <= k < 4)%Z ->
                 exists e,
                   (fun k => if (k <? 4)%Z then Ok (sqrt (inject_Z k))
                             else Err ValueError) k = Ok e).
  { intros k Hk. simpl. destruct (Z.ltb_spec k 4); [|lia].
    eexists. reflexivity. }
  split; [exact H1|]. split; [exact H2|]. split; [exact H3|].
  exact (@sweep_stops_at_first_failure
           (fun k => if (k <? 4)%Z then Ok (sqrt (inject_Z k))
                     else Err ValueError) 4%Z ValueError H1 H2 H3).
Defined.




(** * The class over binary64

    Everything above idealises a float64 as an exact rational.  That is
    sound for what does not depend on rounding: exceptions, shapes, slices,
    the order of the loops.  Where the value of a prediction or the order of
    two distances is at stake, rounding decides, and the class is embedded a
    second time, method for method, over the binary64 numbers themselves.

    The class calls three library routines: the 2-norm inside scipy's
    [euclidean], [np.mean] and [np.argsort].  How the first two round
    depends on the kernels numpy and scipy were built with, so the class is
    embedded over an interface, [Numeric], that fixes of them only what
    every build does: [np.mean] of no number is [nan], and [np.mean] of one
    number is this number.  The general statements hold for every such pair
    of routines and every [np.argsort].  [numpy_reference] instantiates the
    interface with the documented algorithms (pairwise summation divided by
    the length; the square root of the sum of the squares, after scipy's
    check that the vector is finite); it evaluates the concrete examples,
    whose inputs are such that the results do not depend on the kernel.
    [np.argsort] orders binary64 values by [<], with [nan] last. *)

From Stdlib Require Import Floats.

(** The exact value of a finite binary64 number, as a rational (0 stands in
    for infinities and [nan]). *)
Definition exact_value (x : float) : Q :=
  match Prim2SF x with
  | S754_finite s m e =>
      let n := if s then Z.neg m else Z.pos m in
      if (0 <=? e)%Z then inject_Z (n * 2 ^ e) else n # (2 ^ Z.to_pos (- e))
  | _ => 0
  end.

Module Float64.

Definition vec := list float.
Definition matrix := list vec.

Record KNN : Type := mkKNN {
  X_train : option matrix;
  y_train : option (list float)
}.

Definition KNN_new : KNN := mkKNN None None.

Definition M (A : Type) : Type := KNN -> result A * KNN.

Definition ret {A} (a : A) : M A := fun self => (Ok a, self).
Definition bind {A B} (m : M A) (f : A -> M B) : M B :=
  fun self =>
    match m self with
    | (Ok a, self') => f a self'
    | (Err e, self') => (Err e, self')
    end.
Definition lift {A} (r : result A) : M A := fun self => (r, self).

Declare Scope f64_scope.
Notation "x <- m ;; f" := (bind m (fun x => f))
  (at level 61, m at next level, right associativity) : f64_scope.
Notation "m ;;; f" := (bind m (fun _ => f))
  (at level 61, right associativity) : f64_scope.
Local Open Scope f64_scope.

Definition get_X_train : M matrix :=
  fun self => (match X_train self with
               | Some X => Ok X
               | None => Err AttributeError
               end, self).
Definition get_y_train : M (list float) :=
  fun self => (match y_train self with
               | Some y => Ok y
               | None => Err AttributeError
               end, self).
Definition set_X_train (X : matrix) : M unit :=
  fun self => (Ok tt, mkKNN (Some X) (y_train self)).
Definition set_y_train (y : list float) : M unit :=
  fun self => (Ok tt, mkKNN (X_train self) (Some y)).

Definition outcome {A} (m : M A) (self : KNN) : result A := fst (m self).
Definition after {A} (m : M A) (self : KNN) : KNN := snd (m self).

(** ** numpy and scipy primitives over binary64 *)

(** The conversion of an array length to a float. *)
Definition of_nat (n : nat) : float :=
  PrimFloat.of_uint63 (Uint63.of_Z (Z.of_nat n)).

(** [u - v] with numpy's broadcasting. *)
Fixpoint sub_pointwise (u v : vec) : vec :=
  match u, v with
  | a :: u', b :: v' => (a - b)%float :: sub_pointwise u' v'
  | _, _ => []
  end.

Definition broadcast_sub (u v : vec) : result vec :=
  if Nat.eqb (length u) (length v) then Ok (sub_pointwise u v)
  else match u, v with
       | [a], _ => Ok (map (fun b => a - b)%float v)
       | _, [b] => Ok (map (fun a => a - b)%float u)
       | _, _ => Err ValueError
       end.

(** [p] is the number [y], apart from the sign of a zero: for [y = -0.0],
    [p] is [-0.0] or [+0.0]. *)
Definition same_number (p y : float) : Prop :=
  p = y \/ (y = (-0)%float /\ p = 0%float).

(** The two floating-point routines behind the class: [norm] is
    [scipy.linalg.norm(w, ord=2)], which [euclidean] applies to the
    difference of its arguments, and [mean] is [np.mean] on a
    one-dimensional float64 array. *)
Class Numeric : Type := {
  norm : vec -> result float;
  mean : list float -> float;
  (* np.mean of an empty array is nan *)
  mean_empty : mean [] = PrimFloat.nan;
  (* np.mean of a one-element array is this element; the sum may start from
     +0.0, which turns a lone -0.0 into +0.0 *)
  mean_one : forall y, same_number (mean [y]) y
}.

(** [scipy.spatial.distance.euclidean(u, v)] *)
Definition euc {L : Numeric} (u v : vec) : result float :=
  match broadcast_sub u v with
  | Ok w => norm w
  | Err e => Err e
  end.

(** [scipy.linalg.norm(w, ord=2)] as documented: [ValueError] on an infinity
    or a [nan], the square root of the sum of the squares otherwise. *)
Definition norm_of_squares (w : vec) : result float :=
  if forallb PrimFloat.is_finite w
  then Ok (PrimFloat.sqrt (fold_left (fun acc c => acc + c * c)%float w 0%float))
  else Err ValueError.

(** numpy's pairwise summation of a contiguous float64 array: a plain loop
    below 8 elements; up to 128 elements, eight running sums over the groups
    of eight, combined as a tree, then the remaining elements one by one;
    above, the two halves (the first a multiple of eight) summed
    separately. *)
Fixpoint zip_add (r a : list float) : list float :=
  match r, a with
  | x :: r', y :: a' => (x + y)%float :: zip_add r' a'
  | _, _ => r
  end.

Fixpoint unrolled (fuel : nat) (r rest : list float)
  : list float * list float :=
  match fuel with
  | O => (r, rest)
  | S fuel' =>
      if (8 <=? length rest)%nat
      then unrolled fuel' (zip_add r (firstn 8 rest)) (skipn 8 rest)
      else (r, rest)
  end.

Definition block_sum (a : list float) : float :=
  let '(r, rest) := unrolled (length a) (firstn 8 a) (skipn 8 a) in
  match r with
  | [r0; r1; r2; r3; r4; r5; r6; r7] =>
      fold_left PrimFloat.add rest
                (((r0 + r1) + (r2 + r3)) + ((r4 + r5) + (r6 + r7)))%float
  | _ => fold_left PrimFloat.add a 0%float
  end.

Fixpoint pairwise_sum (fuel : nat) (a : list float) : float :=
  let n := length a in
  if (n <? 8)%nat then fold_left PrimFloat.add a 0%float
  else if (n <=? 128)%nat then block_sum a
  else match fuel with
       | O => block_sum a
       | S fuel' =>
           let n2 := (n / 2 - (n / 2) mod 8)%nat in
           (pairwise_sum fuel' (firstn n2 a) +
            pairwise_sum fuel' (skipn n2 a))%float
       end.

(** [np.sum] : the reduction starts from the identity 0. *)
Definition sum (a : list float) : float :=
  (0 + pairwise_sum (length a) a)%float.

(** [np.mean] as documented: the sum over the length; on the empty array
    0 / 0, which is [nan]. *)
Definition pairwise_mean (a : list float) : float :=
  (sum a / of_nat (length a))%float.

(** The order in which numpy sorts binary64 values: [<], and any number
    before [nan]. *)
Definition np_ltb (a b : float) : bool :=
  (a <? b)%float || (negb (PrimFloat.is_nan a) && PrimFloat.is_nan b).
Definition np_leb (a b : float) : bool := negb (np_ltb b a).

Definition by_distance (ds : list float) (i j : nat) : Prop :=
  np_leb (nth i ds 0%float) (nth j ds 0%float) = true.

(** [np.argsort] with the default [kind]: every index once, the values read
    in that order ascending; the order of equal values is not part of the
    contract. *)
Class Argsort : Type := {
  argsort : list float -> list nat;
  argsort_perm : forall d, Permutation (argsort d) (seq 0 (length d));
  argsort_sorted : forall d, StronglySorted (by_distance d) (argsort d)
}.

Fixpoint for_enumerate {A B} (body : nat -> A -> B -> M B)
         (i : nat) (xs : list A) (acc : B) : M B :=
  match xs with
  | [] => ret acc
  | x :: xs' => acc' <- body i x acc ;; for_enumerate body (S i) xs' acc'
  end.

(** ** The class *)

Section KNN_class.
Context {L : Numeric} {AS : Argsort}.

(** [fit] *)
Definition fit (X_train : matrix) (y_train : list float) : M unit :=
  set_X_train X_train ;;;
  set_y_train y_train.

(** [_get_distances] *)
Definition _get_distances (x : vec) : M (list float) :=
  X <- get_X_train ;;
  let distances := zeros 0%float (length X) in
  for_enumerate (fun i point distances =>
                   d <- lift (euc x point) ;;
                   lift (setitem distances i d))
                0 X distances.

(** [_get_k_nearest] *)
Definition _get_k_nearest (distances : list float) (k : Z) : M (list nat) :=
  let nearest := slice_to (argsort distances) k in
  ret nearest.

(** [_get_predicted_value] *)
Definition _get_predicted_value (k_nearest : list nat) : M float :=
  y <- get_y_train ;;
  selected <- lift (take y k_nearest) ;;
  ret (mean selected).

(** [predict] *)
Definition predict (X_test : matrix) (k : Z) : M (list float) :=
  let predictions := zeros 0%float (length X_test) in
  for_enumerate (fun i point predictions =>
                   distances <- _get_distances point ;;
                   k_nearest <- _get_k_nearest distances k ;;
                   prediction <- _get_predicted_value k_nearest ;;
                   lift (setitem predictions i prediction))
                0 X_test predictions.

End KNN_class.

(** ** The order of binary64 values

    The comparisons are read through the specification of the primitive
    operations: a value is ranked by its class (minus infinity, negative,
    zero, positive, plus infinity, [nan]), then by exponent and mantissa. *)

Definition sf_key (f : spec_float) : Z * Z * Z :=
  match f with
  | S754_nan => (3, 0, 0)
  | S754_infinity false => (2, 0, 0)
  | S754_infinity true => (-2, 0, 0)
  | S754_zero _ => (0, 0, 0)
  | S754_finite false m e => (1, e, Z.pos m)
  | S754_finite true m e => (-1, - e, Z.neg m)
  end%Z.

Definition lex_lt (a b : Z * Z * Z) : Prop :=
  let '(a1, a2, a3) := a in
  let '(b1, b2, b3) := b in
  (a1 < b1 \/ (a1 = b1 /\ (a2 < b2 \/ (a2 = b2 /\ a3 < b3))))%Z.

Definition key (x : float) : Z * Z * Z := sf_key (Prim2SF x).

Definition sf_ltb (f1 f2 : spec_float) : bool :=
  SFltb f1 f2 || (negb (negb (SFeqb f1 f1)) && negb (SFeqb f2 f2)).

Lemma sf_ltb_key f1 f2 : sf_ltb f1 f2 = true <-> lex_lt (sf_key f1) (sf_key f2).
Proof.
  unfold sf_ltb, SFltb, SFeqb.
  destruct f1 as [s1|s1| |s1 m1 e1]; destruct f2 as [s2|s2| |s2 m2 e2];
    try destruct s1; try destruct s2; simpl;
    rewrite ?Z.compare_refl, ?Pos.compare_cont_refl; simpl;
    try (split; [intros H; try discriminate H; lia | intros H; try reflexivity; lia]).
  all: fold (Pos.compare m1 m2);
    destruct (Z.compare_spec e1 e2); destruct (Pos.compare_spec m1 m2);
    simpl; split; intros H'; try discriminate H'; try reflexivity; lia.
Qed.

Lemma np_ltb_key a b : np_ltb a b = true <-> lex_lt (key a) (key b).
Proof.
  unfold np_ltb, PrimFloat.is_nan, key.
  rewrite ltb_spec, !eqb_spec. apply sf_ltb_key.
Qed.

Lemma np_leb_key a b : np_leb a b = true <-> ~ lex_lt (key b) (key a).
Proof.
  unfold np_leb. rewrite negb_true_iff, <- np_ltb_key.
  destruct (np_ltb b a); split; congruence.
Qed.

Lemma lex_lt_total a b : ~ lex_lt a b -> ~ lex_lt b a -> a = b.
Proof.
  destruct a as [[a1 a2] a3], b as [[b1 b2] b3]. unfold lex_lt.
  intros H1 H2. assert (a1 = b1 /\ a2 = b2 /\ a3 = b3) as (-> & -> & ->) by lia.
  reflexivity.
Qed.

Lemma np_leb_trans a b c :
  np_leb a b = true -> np_leb b c = true -> np_leb a c = true.
Proof.
  rewrite !np_leb_key. unfold lex_lt.
  destruct (key a) as [[a1 a2] a3], (key b) as [[b1 b2] b3],
           (key c) as [[c1 c2] c3].
  lia.
Qed.

Lemma np_leb_false a b : np_leb a b = false -> np_leb b a = true.
Proof.
  intros H. apply np_leb_key. intros Hlt.
  assert (Hba : lex_lt (key b) (key a)).
  { apply np_ltb_key. unfold np_leb in H. apply negb_false_iff in H. exact H. }
  revert Hlt Hba. unfold lex_lt.
  destruct (key a) as [[a1 a2] a3], (key b) as [[b1 b2] b3]. lia.
Qed.

Lemma np_leb_refl a : np_leb a a = true.
Proof.
  apply np_leb_key. unfold lex_lt.
  destruct (key a) as [[a1 a2] a3]. lia.
Qed.

(** The recursion of [pairwise_sum] never runs out: any fuel at least the
    length of the array gives the same sum. *)
Lemma f64_pairwise_sum_fuel fuel :
  forall fuel' a,
    (length a <= fuel)%nat -> (length a <= fuel')%nat ->
    pairwise_sum fuel a = pairwise_sum fuel' a.
Proof.
  induction fuel as [|fuel IH]; intros fuel' a Hf Hf'.
  - destruct a; [|simpl in Hf; lia]. destruct fuel'; reflexivity.
  - destruct fuel' as [|fuel'].
    + destruct a; [|simpl in Hf'; lia]. reflexivity.
    + cbn [pairwise_sum].
      destruct (length a <? 8)%nat; [reflexivity|].
      destruct (Nat.leb_spec (length a) 128) as [Hs|Hb]; [reflexivity|].
      assert (Hn2 : (0 < length a / 2 - (length a / 2) mod 8 < length a)%nat).
      { pose proof (Nat.mod_upper_bound (length a / 2) 8).
        pose proof (Nat.Div0.div_mul_le (length a) 2).
        assert (64 <= length a / 2)%nat
          by (apply Nat.div_le_lower_bound; lia).
        pose proof (Nat.div_lt (length a) 2). lia. }
      f_equal; apply IH;
        rewrite ?length_firstn, ?length_skipn; lia.
Qed.

(** ** A stable implementation of the interface *)

Fixpoint insert_index (d : list float) (i : nat) (l : list nat) : list nat :=
  match l with
  | [] => [i]
  | j :: l' =>
      if np_leb (nth i d 0%float) (nth j d 0%float)
      then i :: j :: l'
      else j :: insert_index d i l'
  end.

Definition insertion_argsort (d : list float) : list nat :=
  fold_right (insert_index d) [] (seq 0 (length d)).

Lemma f64_insert_index_perm d i l :
  Permutation (insert_index d i l) (i :: l).
Proof.
  induction l as [|j l IH]; simpl.
  - apply Permutation_refl.
  - destruct (np_leb _ _).
    + apply Permutation_refl.
    + eapply perm_trans; [apply perm_skip, IH | apply perm_swap].
Qed.

Lemma f64_insertion_argsort_perm d :
  Permutation (insertion_argsort d) (seq 0 (length d)).
Proof.
  unfold insertion_argsort.
  induction (seq 0 (length d)) as [|i l IH]; simpl.
  - constructor.
  - eapply perm_trans; [apply f64_insert_index_perm | apply perm_skip, IH].
Qed.

Lemma f64_insert_index_sorted d i l :
  StronglySorted (by_distance d) l ->
  StronglySorted (by_distance d) (insert_index d i l).
Proof.
  induction 1 as [|j l Hs IH Hj]; simpl.
  - repeat constructor.
  - destruct (np_leb _ _) eqn:E.
    + constructor; [constructor; assumption|].
      constructor; [exact E|].
      eapply Forall_impl; [|exact Hj].
      intros m Hm. unfold by_distance in *.
      eapply np_leb_trans; eassumption.
    + constructor; [exact IH|].
      apply (Permutation_Forall (Permutation_sym (f64_insert_index_perm d i l))).
      constructor; [apply np_leb_false, E | exact Hj].
Qed.

Lemma f64_insertion_argsort_sorted d :
  StronglySorted (by_distance d) (insertion_argsort d).
Proof.
  unfold insertion_argsort.
  induction (seq 0 (length d)) as [|i l IH]; simpl.
  - constructor.
  - apply f64_insert_index_sorted, IH.
Qed.

(** Insertion sort, equal values in the order of their indices. *)
Definition stable_argsort : Argsort :=
  {| argsort := insertion_argsort;
     argsort_perm := f64_insertion_argsort_perm;
     argsort_sorted := f64_insertion_argsort_sorted |}.

(** ** What the loops compute *)

(** One iteration of [predict]'s loop, as a function of the state. *)
Definition predict_point {L : Numeric} {AS : Argsort}
      (self : KNN) (k : Z) (point : vec)
  : result float :=
  match X_train self with
  | None => Err AttributeError
  | Some X =>
      match traverse (euc point) X with
      | Err e => Err e
      | Ok distances =>
          match y_train self with
          | None => Err AttributeError
          | Some y =>
              match take y (slice_to (argsort distances) k) with
              | Err e => Err e
              | Ok selected => Ok (mean selected)
              end
          end
      end
  end.

(** The distance computations of a query succeed, with the array [ds]. *)
Definition scanned {L : Numeric} (X : matrix) (q : vec) (ds : list float) : Prop :=
  traverse (euc q) X = Ok ds.

(** Every query of a batch can be scanned against the training rows. *)
Definition scannable {L : Numeric} (X : matrix) (qs : matrix) : Prop :=
  Forall (fun q => exists ds, scanned X q ds) qs.

(** No two computed distances are equal or unordered. *)
Definition no_ties (ds : list float) : Prop :=
  forall i j, (i < length ds)%nat -> (j < length ds)%nat -> i <> j ->
              np_ltb (nth i ds 0%float) (nth j ds 0%float) = true \/
              np_ltb (nth j ds 0%float) (nth i ds 0%float) = true.

Lemma f64_for_enumerate_fill {A B} (g : A -> result B)
      (body : nat -> A -> list B -> M (list B)) (self : KNN) :
  (forall i x acc,
      body i x acc self =
      (match g x with Ok v => setitem acc i v | Err e => Err e end, self)) ->
  forall xs pre rest,
    length rest = length xs ->
    for_enumerate body (length pre) xs (pre ++ rest) self =
    (match traverse g xs with
     | Ok vs => Ok (pre ++ vs)
     | Err e => Err e
     end, self).
Proof.
  intros Hbody xs.
  induction xs as [|x xs IH]; intros pre rest Hlen.
  - destruct rest; [|discriminate]. reflexivity.
  - destruct rest as [|r rest]; [discriminate|].
    simpl in Hlen. injection Hlen as Hlen.
    simpl. unfold bind. rewrite Hbody.
    destruct (g x) as [v|e]; [|reflexivity].
    rewrite setitem_app.
    replace (S (length pre)) with (length (pre ++ [v]))
      by (rewrite length_app; simpl; lia).
    replace (pre ++ v :: rest) with ((pre ++ [v]) ++ rest)
      by (rewrite <- app_assoc; reflexivity).
    rewrite (IH _ _ Hlen).
    destruct (traverse g xs); [|reflexivity].
    rewrite <- app_assoc. reflexivity.
Qed.

Lemma f64_for_enumerate_zeros {A B} (g : A -> result B)
      (body : nat -> A -> list B -> M (list B)) (self : KNN) (zero : B) xs :
  (forall i x acc,
      body i x acc self =
      (match g x with Ok v => setitem acc i v | Err e => Err e end, self)) ->
  for_enumerate body 0 xs (zeros zero (length xs)) self = (traverse g xs, self).
Proof.
  intros Hbody.
  pose proof (@f64_for_enumerate_fill _ _ g body self Hbody xs []
                (zeros zero (length xs))
                (repeat_length zero (length xs))) as H.
  etransitivity; [exact H|].
  destruct (traverse g xs); reflexivity.
Qed.

Lemma f64_get_distances_run {L : Numeric} x self :
  _get_distances x self =
  (match X_train self with
   | Some X => traverse (euc x) X
   | None => Err AttributeError
   end, self).
Proof.
  unfold _get_distances, bind, get_X_train.
  destruct (X_train self) as [X|]; [|reflexivity].
  apply f64_for_enumerate_zeros.
  intros i p acc. unfold bind, lift. destruct (euc x p); reflexivity.
Qed.

Lemma f64_get_predicted_value_run {L : Numeric} idx self :
  _get_predicted_value idx self =
  (match y_train self with
   | Some y => match take y idx with
               | Ok selected => Ok (mean selected)
               | Err e => Err e
               end
   | None => Err AttributeError
   end, self).
Proof.
  unfold _get_predicted_value, bind, get_y_train, lift, ret.
  destruct (y_train self) as [y|]; [|reflexivity].
  destruct (take y idx); reflexivity.
Qed.

Lemma f64_fit_run (X : matrix) (y : list float) self : fit X y self = (Ok tt, mkKNN (Some X) (Some y)).
Proof. reflexivity. Qed.

Section F64_facts.
Context {L : Numeric} {AS : Argsort}.

Lemma f64_predict_run X_test k self :
  predict X_test k self = (traverse (predict_point self k) X_test, self).
Proof.
  unfold predict.
  apply f64_for_enumerate_zeros.
  intros i p acc. unfold bind at 1. rewrite f64_get_distances_run.
  unfold predict_point.
  destruct (X_train self) as [X|]; [|reflexivity].
  destruct (traverse (euc p) X) as [ds|e]; [|reflexivity].
  unfold bind, _get_k_nearest, ret. rewrite f64_get_predicted_value_run.
  destruct (y_train self) as [y|]; [|reflexivity].
  destruct (take y _); reflexivity.
Qed.

Lemma f64_argsort_length ds : length (argsort ds) = length ds.
Proof.
  rewrite (Permutation_length (argsort_perm ds)). apply length_seq.
Qed.

Lemma f64_argsort_in_range ds :
  Forall (fun i => (i < length ds)%nat) (argsort ds).
Proof.
  rewrite Forall_forall. intros i Hi.
  apply (Permutation_in _ (argsort_perm ds)) in Hi.
  apply in_seq in Hi. lia.
Qed.

Lemma f64_argsort_NoDup ds : NoDup (argsort ds).
Proof.
  apply (Permutation_NoDup (Permutation_sym (argsort_perm ds))).
  apply seq_NoDup.
Qed.

Lemma f64_slice_in_range ds k :
  Forall (fun i => (i < length ds)%nat) (slice_to (argsort ds) k).
Proof.
  destruct (slice_to_prefix (argsort ds) k) as [m ->].
  apply Forall_firstn, f64_argsort_in_range.
Qed.

(** The targets averaged for a query whose distances are [ds]. *)
Definition selected_targets (y : list float) (ds : list float) (k : Z)
  : list float :=
  map (fun i => nth i y 0%float) (slice_to (argsort ds) k).

Lemma f64_predict_point_scanned (X : matrix) (y : list float) k q ds :
  length X = length y -> scanned X q ds ->
  predict_point (mkKNN (Some X) (Some y)) k q
  = Ok (mean (selected_targets y ds k)).
Proof.
  intros Hlen Hds. unfold predict_point. simpl.
  unfold scanned in Hds. rewrite Hds.
  rewrite (@take_ok _ y 0%float); [reflexivity|].
  rewrite <- Hlen, <- (traverse_length _ _ Hds).
  apply f64_slice_in_range.
Qed.

Lemma f64_selected_all y ds k :
  length ds = length y -> (Z.of_nat (length ds) <= k)%Z ->
  Permutation (selected_targets y ds k) y.
Proof.
  intros Hlen Hk. unfold selected_targets.
  rewrite slice_to_all by (rewrite f64_argsort_length; exact Hk).
  eapply perm_trans; [apply Permutation_map, argsort_perm|].
  rewrite Hlen, map_nth_seq. apply Permutation_refl.
Qed.

Lemma f64_traverse_scannable (X : matrix) (y : list float) qs k :
  length X = length y -> scannable X qs ->
  exists ps,
    traverse (predict_point (mkKNN (Some X) (Some y)) k) qs = Ok ps /\
    Forall2 (fun q p => exists ds, scanned X q ds /\
                                   p = mean (selected_targets y ds k)) qs ps.
Proof.
  intros Hlen Hqs.
  induction Hqs as [|q qs [ds Hds] _ [ps [IH1 IH2]]].
  - exists []. split; [reflexivity | constructor].
  - cbn [traverse].
    rewrite (@f64_predict_point_scanned X y k q ds Hlen Hds), IH1.
    eexists. split; [reflexivity|].
    constructor; [|exact IH2]. exists ds. split; [exact Hds | reflexivity].
Qed.

(** On a fitted model with as many targets as rows, a batch whose queries
    can all be scanned is answered query by query. *)
Lemma f64_predict_scannable (X : matrix) (y : list float) qs k self :
  length X = length y -> scannable X qs ->
  exists ps,
    outcome (predict qs k) (after (fit X y) self) = Ok ps /\
    Forall2 (fun q p => exists ds, scanned X q ds /\
                                   p = mean (selected_targets y ds k)) qs ps.
Proof.
  intros Hlen Hqs. unfold outcome, after.
  rewrite f64_fit_run, f64_predict_run.
  apply f64_traverse_scannable; assumption.
Qed.
End F64_facts.

(** ** The mean of one number

    The documented [np.mean] of a one-element array is this element: adding
    it to the initial 0 and dividing by 1 are exact.  Only the sign of a zero
    is lost: the mean of [-0.0] is [+0.0]. *)

Lemma f64_add_zero_l (y : float) :
  y <> (-0)%float -> (0 + y)%float = y.
Proof.
  intros Hy. apply Prim2SF_inj. rewrite add_spec.
  change (Prim2SF 0) with (S754_zero false).
  destruct (Prim2SF y) as [s|s| |s m e] eqn:E; try reflexivity.
  destruct s; [|reflexivity].
  exfalso. apply Hy. apply Prim2SF_inj. rewrite E. reflexivity.
Qed.

Lemma f64_div_one (x : float) : (x / 1)%float = x.
Proof.
  apply Prim2SF_inj. rewrite div_spec.
  change (Prim2SF 1) with (S754_finite false 4503599627370496 (-52)).
  pose proof (Prim2SF_valid x) as Hv.
  destruct (Prim2SF x) as [s|s| |s m e]; try reflexivity.
  - destruct s; reflexivity.
  - destruct s; reflexivity.
  - unfold SpecFloat.valid_binary, bounded, canonical_mantissa, fexp,
      SpecFloat.emin in Hv.
    apply andb_true_iff in Hv. destruct Hv as [Hc Hb].
    apply Z.eqb_eq in Hc. apply Z.leb_le in Hb.
    change prec with 53%Z in *. change emax with 1024%Z in *.
    set (d := Z.pos (digits2_pos m)) in *.
    assert (Hd : (0 < d)%Z) by (unfold d; lia).
    unfold SF64div, SFdiv, SFdiv_core_binary.
    change prec with 53%Z. change emax with 1024%Z.
    unfold fexp, SpecFloat.emin.
    change (Zdigits2 (Z.pos m)) with d.
    change (Zdigits2 4503599627370496) with 53%Z.
    destruct (Z.lt_ge_cases (d + e - 54) (-1074)) as [Hsub|Hnorm].
    + replace (Z.min (Z.max (d + e - (53 + -52) - 53) (3 - 1024 - 53))
                     (e - -52))
        with e by lia.
      replace (e - -52 - e)%Z with 52%Z by lia.
      cbv iota beta.
      assert (E : Z.div_eucl (Z.shiftl (Z.pos m) 52) 4503599627370496
                  = (Z.pos m, 0%Z)).
      { rewrite Z.shiftl_mul_pow2 by lia.
        change (2 ^ 52)%Z with 4503599627370496%Z.
        pose proof (Z.div_eucl_eq (Z.pos m * 4503599627370496)
                                  4503599627370496) as Hq.
        pose proof (Z.mod_pos_bound (Z.pos m * 4503599627370496)
                                    4503599627370496) as Hm.
        unfold Z.modulo in Hm.
        destruct (Z.div_eucl (Z.pos m * 4503599627370496) 4503599627370496)
          as [q r].
        assert (r = 0 /\ q = Z.pos m)%Z as [-> ->] by lia. reflexivity. }
      rewrite E.
      change (new_location 4503599627370496 0) with loc_Exact.
      unfold binary_round_aux, shr_fexp, fexp, SpecFloat.emin.
      change (Zdigits2 (Z.pos m)) with d.
      replace (Z.max (d + e - 53) (3 - 1024 - 53) - e)%Z with 0%Z by lia.
      cbn [shr_record_of_loc shr shr_m loc_of_shr_record round_nearest_even].
      change (Zdigits2 (Z.pos m)) with d.
      replace (Z.max (d + e - 53) (3 - 1024 - 53) - e)%Z with 0%Z by lia.
      cbn [shr_record_of_loc shr shr_m].
      destruct (Z.leb_spec e (1024 - 53)); [|lia].
      destruct s; reflexivity.
    + assert (Hd53 : (d = 53)%Z) by lia.
      replace (Z.min (Z.max (d + e - (53 + -52) - 53) (3 - 1024 - 53))
                     (e - -52))
        with (e - 1)%Z by lia.
      replace (e - -52 - (e - 1))%Z with 53%Z by lia.
      cbv iota beta.
      assert (E : Z.div_eucl (Z.shiftl (Z.pos m) 53) 4503599627370496
                  = (Z.pos (xO m), 0%Z)).
      { rewrite Z.shiftl_mul_pow2 by lia.
        change (2 ^ 53)%Z with 9007199254740992%Z.
        pose proof (Z.div_eucl_eq (Z.pos m * 9007199254740992)
                                  4503599627370496) as Hq.
        pose proof (Z.mod_pos_bound (Z.pos m * 9007199254740992)
                                    4503599627370496) as Hm.
        unfold Z.modulo in Hm.
        destruct (Z.div_eucl (Z.pos m * 9007199254740992) 4503599627370496)
          as [q r].
        assert (r = 0 /\ q = Z.pos (xO m))%Z as [-> ->] by lia. reflexivity. }
      rewrite E.
      change (new_location 4503599627370496 0) with loc_Exact.
      unfold binary_round_aux, shr_fexp, fexp, SpecFloat.emin.
      change (Zdigits2 (Z.pos (xO m))) with (Z.pos (Pos.succ (digits2_pos m))).
      rewrite Pos2Z.inj_succ. fold d.
      replace (Z.max (Z.succ d + (e - 1) - 53) (3 - 1024 - 53) - (e - 1))%Z
        with 1%Z by lia.
      cbn [shr_record_of_loc shr shr_m loc_of_shr_record round_nearest_even
           iter_pos shr_1 orb shr_r shr_s].
      replace (e - 1 + 1)%Z with e by lia.
      change (Zdigits2 (Z.pos m)) with d.
      replace (Z.max (d + e - 53) (3 - 1024 - 53) - e)%Z with 0%Z by lia.
      cbn [shr_record_of_loc shr shr_m].
      destruct (Z.leb_spec e (1024 - 53)); [|lia].
      destruct s; reflexivity.
Qed.

Lemma f64_mean_singleton (y : float) : same_number (pairwise_mean [y]) y.
Proof.
  unfold same_number, pairwise_mean, sum.
  change (of_nat (length [y])) with 1%float.
  change (pairwise_sum (length [y]) [y]) with (0 + y)%float.
  rewrite f64_div_one.
  destruct (Leibniz.eqb y (-0)%float) eqn:E.
  - apply Leibniz.eqb_spec in E. subst y. right. split; reflexivity.
  - left. assert (Hy : y <> (-0)%float).
    { intros H. apply Leibniz.eqb_spec in H. congruence. }
    rewrite !(f64_add_zero_l Hy). reflexivity.
Qed.

(** ** The documented routines *)

(** The documented algorithms, as an instance of the interface. *)
Definition numpy_reference : Numeric :=
  {| norm := norm_of_squares;
     mean := pairwise_mean;
     mean_empty := eq_refl;
     mean_one := f64_mean_singleton |}.

(** ** The examples *)

(** The training set and query of the specification's end-to-end example. *)
Definition example_X : matrix := [[0; 0]; [10; 0]; [0; 10]]%float.
Definition example_y : list float := [10; 20; 30]%float.
Definition example_query : vec := [1; 0]%float.
(** Its computed distances: 1, 9 and the square root of 101. *)
Definition example_distances : list float :=
  [1; 9; PrimFloat.sqrt 101]%float.

(** Three points on a line with the targets 0.1, 0.2 and 0.3 (the binary64
    numbers nearest to them). *)
Definition line_X : matrix := [[0]; [1]; [2]]%float.
(** Three times the target 0.1. *)
Definition same_y : list float :=
  [0x1.999999999999ap-4; 0x1.999999999999ap-4; 0x1.999999999999ap-4]%float.

Section F64_order.
Context {L : Numeric} {AS : Argsort}.

Lemma f64_predict_one (X : matrix) (y : list float) q ds k self :
  length X = length y -> scanned X q ds ->
  outcome (predict [q] k) (after (fit X y) self)
  = Ok [mean (selected_targets y ds k)].
Proof.
  intros Hlen Hds. unfold outcome, after.
  rewrite f64_fit_run, f64_predict_run. cbn [traverse fst snd].
  rewrite (@f64_predict_point_scanned L AS X y k q ds Hlen Hds). reflexivity.
Qed.

Lemma f64_argsort_head_minimal ds :
  ds <> [] ->
  exists j rest,
    argsort ds = j :: rest /\ (j < length ds)%nat /\
    forall i, (i < length ds)%nat -> by_distance ds j i.
Proof.
  intros Hne.
  pose proof (argsort_perm ds) as Hperm.
  pose proof (argsort_sorted ds) as Hsorted.
  pose proof (f64_argsort_in_range ds) as Hrange.
  pose proof (f64_argsort_length ds) as Hlen.
  destruct (argsort ds) as [|j rest].
  - destruct ds; [congruence | discriminate].
  - exists j, rest. split; [reflexivity|].
    inversion Hrange as [|? ? Hj _]; subst. split; [exact Hj|].
    intros i Hi.
    assert (Hin : In i (j :: rest)).
    { apply (Permutation_in _ (Permutation_sym Hperm)), in_seq. lia. }
    destruct Hin as [<-|Hin].
    + apply np_leb_refl.
    + inversion Hsorted as [|? ? _ Hall]; subst.
      rewrite Forall_forall in Hall. apply Hall, Hin.
Qed.

Lemma f64_argsort_head_strict ds j :
  (j < length ds)%nat ->
  (forall i, (i < length ds)%nat -> i <> j ->
             np_ltb (nth j ds 0%float) (nth i ds 0%float) = true) ->
  exists rest, argsort ds = j :: rest.
Proof.
  intros Hj Hstrict.
  assert (Hne : ds <> []) by (intros ->; simpl in Hj; lia).
  destruct (f64_argsort_head_minimal Hne) as (j0 & rest & Hhead & Hj0 & Hmin).
  exists rest. rewrite Hhead. f_equal.
  destruct (Nat.eq_dec j0 j) as [E|N]; [exact E|exfalso].
  specialize (Hstrict j0 Hj0 N). specialize (Hmin j Hj).
  unfold by_distance, np_leb in Hmin. rewrite Hstrict in Hmin. discriminate.
Qed.
End F64_order.

Lemma f64_argsort_forced (AS1 AS2 : Argsort) ds :
  no_ties ds -> @argsort AS1 ds = @argsort AS2 ds.
Proof.
  intros Hnt.
  apply (@sorted_perm_unique _ (by_distance ds)).
  - eapply perm_trans; [apply argsort_perm|].
    apply Permutation_sym, argsort_perm.
  - apply argsort_sorted.
  - apply argsort_sorted.
  - intros a b Ha Hb Hab Hba.
    pose proof (@f64_argsort_in_range AS1 ds) as Hr.
    rewrite Forall_forall in Hr.
    destruct (Nat.eq_dec a b) as [E|N]; [exact E|exfalso].
    unfold by_distance, np_leb in Hab, Hba.
    destruct (Hnt a b (Hr a Ha) (Hr b Hb) N) as [H|H];
      rewrite H in *; discriminate.
Qed.

Lemma f64_example_scanned :
  scanned (L := numpy_reference) example_X example_query example_distances.
Proof. reflexivity. Qed.

Lemma f64_example_no_ties : no_ties example_distances.
Proof.
  intros i j Hi Hj Hij. simpl in Hi, Hj.
  destruct i as [|[|[|i]]]; destruct j as [|[|[|j]]]; try lia;
    first [left; reflexivity | right; reflexivity].
Qed.

Lemma f64_example_prediction (AS : Argsort) k self :
  outcome (predict (L := numpy_reference) [example_query] k)
          (after (fit example_X example_y) self)
  = Ok [pairwise_mean (selected_targets (AS := stable_argsort)
                                        example_y example_distances k)].
Proof.
  rewrite (@f64_predict_one numpy_reference AS example_X example_y example_query
             example_distances k self eq_refl f64_example_scanned).
  unfold selected_targets.
  rewrite (f64_argsort_forced AS stable_argsort f64_example_no_ties).
  reflexivity.
Qed.

(** ** All the targets: [k = n_train] and beyond *)

(** What [predict] returns for the query [q] when the slice keeps every
    index: [np.mean] of the targets listed by ascending computed distance. *)
Definition mean_in_distance_order {L : Numeric} {AS : Argsort}
      (X : matrix) (y : list float)
           (q : vec) (p : float) : Prop :=
  exists ds,
    scanned X q ds /\
    Permutation (map (fun i => nth i y 0%float) (argsort ds)) y /\
    p = mean (map (fun i => nth i y 0%float) (argsort ds)).

Lemma f64_predict_at_least_all {L : Numeric} {AS : Argsort}
      (X : matrix) (y : list float)
      qs k self :
  length X = length y -> scannable X qs ->
  (Z.of_nat (length X) <= k)%Z ->
  exists ps,
    outcome (predict qs k) (after (fit X y) self) = Ok ps /\
    Forall2 (mean_in_distance_order X y) qs ps.
Proof.
  intros Hlen Hqs Hk.
  destruct (@f64_predict_scannable L AS X y qs k self Hlen Hqs) as (ps & Hps & Hall).
  exists ps. split; [exact Hps|].
  eapply Forall2_impl; [|exact Hall].
  intros q p (ds & Hds & ->).
  exists ds. split; [exact Hds|].
  pose proof (traverse_length _ _ Hds) as Hl.
  assert (Hall' : selected_targets y ds k
                  = map (fun i => nth i y 0%float) (argsort ds)).
  { unfold selected_targets.
    rewrite slice_to_all by (rewrite f64_argsort_length, Hl; exact Hk).
    reflexivity. }
  rewrite <- Hall'. split; [|reflexivity].
  apply f64_selected_all; [congruence | rewrite Hl; exact Hk].
Qed.







(** C4, as the code has it.  [predict] has no check on [k].  With [k = 0]
    the selection is empty and every query is answered [nan]; with [k]
    above the number of training points every query is answered [np.mean]
    of all the targets, taken in the order of their computed distances.
    Neither call raises. *)
Theorem predict_k_out_of_range_answers :
  forall (L : Numeric) (AS : Argsort) (X : matrix) (y : list float) qs self,
    length X = length y -> scannable X qs ->
    outcome (predict qs 0) (after (fit X y) self)
    = Ok (map (fun _ => nan) qs) /\
    forall k, (Z.of_nat (length X) < k)%Z ->
      exists ps,
        outcome (predict qs k) (after (fit X y) self) = Ok ps /\
        Forall2 (mean_in_distance_order X y) qs ps.
Proof.
  intros L AS X y qs self Hlen Hqs. split.
  - unfold outcome, after. rewrite f64_fit_run, f64_predict_run.
    cbn [fst snd]. apply traverse_ok_map.
    eapply Forall_impl; [|exact Hqs].
    intros q [ds Hds].
    rewrite (@f64_predict_point_scanned L AS X y 0%Z q ds Hlen Hds).
    unfold selected_targets, slice_to. cbn [Z.leb Z.to_nat firstn map].
    rewrite mean_empty. reflexivity.
  - intros k Hk. apply f64_predict_at_least_all; try assumption. lia.
Qed.

Lemma predict_k_out_of_range_answers_witness :
  length example_X = length example_y /\
  scannable (L := numpy_reference) example_X [example_query] /\
  outcome (predict (L := numpy_reference) (AS := stable_argsort)
             [example_query] 0)
          (after (fit example_X example_y) KNN_new)
  = Ok (map (fun _ => nan) [example_query]) /\
  forall k, (Z.of_nat (length example_X) < k)%Z ->
    exists ps,
      outcome (predict (L := numpy_reference) (AS := stable_argsort)
                 [example_query] k)
              (after (fit example_X example_y) KNN_new) = Ok ps /\
      Forall2 (mean_in_distance_order (L := numpy_reference) (AS := stable_argsort)
                 example_X example_y)
              [example_query] ps.
Proof.
  assert (H1 : length example_X = length example_y) by reflexivity.
  assert (H2 : scannable (L := numpy_reference) example_X [example_query]).
  { repeat constructor; eexists; reflexivity. }
  split; [exact H1|]. split; [exact H2|].
  exact (@predict_k_out_of_range_answers numpy_reference stable_argsort
           example_X example_y
           [example_query] KNN_new H1 H2).
Defined.

(** ** A valid [k] *)

(** What [predict] returns for the query [q] and a valid [k]: [np.mean] of
    the targets stored at [k] distinct training indices. *)
Definition mean_of_k_targets {L : Numeric} (X : matrix) (y : list float) (k : Z)
           (q : vec) (p : float) : Prop :=
  exists ds idx,
    scanned X q ds /\
    length idx = Z.to_nat k /\ NoDup idx /\
    Forall (fun i => (i < length X)%nat) idx /\
    Forall (fun t => In t y) (map (fun i => nth i y 0%float) idx) /\
    p = mean (map (fun i => nth i y 0%float) idx).

(** C10, as the code has it.  With [1 <= k <= n_train], every prediction is
    [np.mean] of [k] of the stored targets, read at [k] distinct training
    indices.  Each averaged value is a stored target; the rounded mean
    itself is not bound to lie between the smallest and the largest of
    them. *)
Theorem predict_is_mean_of_k_stored_targets :
  forall (L : Numeric) (AS : Argsort) (X : matrix) (y : list float) qs k self,
    length X = length y -> scannable X qs ->
    (1 <= k <= Z.of_nat (length X))%Z ->
    exists ps,
      outcome (predict qs k) (after (fit X y) self) = Ok ps /\
      Forall2 (mean_of_k_targets X y k) qs ps.
Proof.
  intros L AS X y qs k self Hlen Hqs Hk.
  destruct (@f64_predict_scannable L AS X y qs k self Hlen Hqs)
    as (ps & Hps & Hall).
  exists ps. split; [exact Hps|].
  eapply Forall2_impl; [|exact Hall].
  intros q p (ds & Hds & ->).
  pose proof (traverse_length _ _ Hds) as Hl.
  exists ds, (slice_to (argsort ds) k).
  assert (Hslice : slice_to (argsort ds) k = firstn (Z.to_nat k) (argsort ds)).
  { unfold slice_to. destruct (Z.leb_spec 0 k); [reflexivity | lia]. }
  assert (Hrange : Forall (fun i => (i < length X)%nat)
                          (slice_to (argsort ds) k)).
  { rewrite <- Hl. apply f64_slice_in_range. }
  split; [exact Hds|].
  split; [rewrite Hslice, length_firstn, f64_argsort_length; lia|].
  split.
  { rewrite Hslice.
    pose proof (f64_argsort_NoDup ds) as Hnd.
    rewrite <- (firstn_skipn (Z.to_nat k) (argsort ds)) in Hnd.
    apply (NoDup_app_remove_r _ _ Hnd). }
  split; [exact Hrange|].
  split; [|reflexivity].
  apply Forall_map. eapply Forall_impl; [|exact Hrange].
  intros i Hi. apply nth_In. rewrite <- Hlen. exact Hi.
Qed.

Lemma predict_is_mean_of_k_stored_targets_witness :
  length line_X = length same_y /\
  scannable (L := numpy_reference) line_X [[0]]%float /\
  (1 <= 3 <= Z.of_nat (length line_X))%Z /\
  exists ps,
    outcome (predict (L := numpy_reference) (AS := stable_argsort)
               [[0]]%float 3)
            (after (fit line_X same_y) KNN_new) = Ok ps /\
    Forall2 (mean_of_k_targets (L := numpy_reference)
               line_X same_y 3) [[0]]%float ps.
Proof.
  assert (H1 : length line_X = length same_y) by reflexivity.
  assert (H2 : scannable (L := numpy_reference) line_X [[0]]%float).
  { repeat constructor; eexists; reflexivity. }
  assert (H3 : (1 <= 3 <= Z.of_nat (length line_X))%Z) by (simpl; lia).
  split; [exact H1|]. split; [exact H2|]. split; [exact H3|].
  exact (@predict_is_mean_of_k_stored_targets numpy_reference stable_argsort
           line_X same_y
           [[0]]%float 3%Z KNN_new H1 H2 H3).
Defined.

(** C10 as stated fails: three training points with the same target 0.1 and
    [k = 3] give the prediction 0.10000000000000002, above every stored
    target. *)
Lemma predict_above_largest_target :
  outcome (predict (L := numpy_reference) (AS := stable_argsort) [[0]]%float 3)
          (after (fit line_X same_y) KNN_new)
  = Ok [0x1.999999999999bp-4]%float /\
  Forall (fun t => (t <? 0x1.999999999999bp-4)%float = true) same_y.
Proof. split; [reflexivity | repeat constructor]. Qed.

(** ** The nearest neighbour *)

Lemma f64_predict_nearest {L : Numeric} {AS : Argsort}
      (X : matrix) (y : list float)
      q ds j yj self :
  scanned X q ds -> (j < length ds)%nat ->
  (forall i, (i < length ds)%nat -> i <> j ->
             np_ltb (nth j ds 0%float) (nth i ds 0%float) = true) ->
  nth_error y j = Some yj ->
  outcome (predict [q] 1) (after (fit X y) self) = Ok [mean [yj]].
Proof.
  intros Hds Hj Hstrict Hy.
  destruct (f64_argsort_head_strict ds Hj Hstrict) as [rest Hhead].
  unfold outcome, after. rewrite f64_fit_run, f64_predict_run.
  cbn [traverse fst snd]. unfold predict_point. cbn [X_train y_train].
  unfold scanned in Hds. rewrite Hds, Hhead.
  change (slice_to (j :: rest) 1) with [j].
  unfold take. cbn [traverse]. unfold getitem. rewrite Hy. reflexivity.
Qed.

(** C2, as the code has it.  With [k = 1], [predict] returns the target of
    the training point whose computed distance to the query is strictly the
    smallest; in particular, when one training point is at computed
    distance zero and all the others at a positive one, that point's
    target.  (A target [-0.0] may come back as [+0.0].)  Computed distances
    are rounded: two points at different exact distances can come out
    equal.  On the example training set the query (1, 0) with [k = 1] is
    predicted exactly 10. *)
Theorem predict_k_one_nearest_computed :
  (forall (L : Numeric) (AS : Argsort)
          (X : matrix) (y : list float) q ds j yj self,
      scanned X q ds -> (j < length ds)%nat ->
      (forall i, (i < length ds)%nat -> i <> j ->
                 np_ltb (nth j ds 0%float) (nth i ds 0%float) = true) ->
      nth_error y j = Some yj ->
      exists p,
        outcome (predict [q] 1) (after (fit X y) self) = Ok [p] /\
        same_number p yj) /\
  (forall (L : Numeric) (AS : Argsort)
          (X : matrix) (y : list float) q ds j yj self,
      scanned X q ds -> (j < length ds)%nat ->
      nth j ds 0%float = 0%float ->
      (forall i, (i < length ds)%nat -> i <> j ->
                 (0 <? nth i ds 0)%float = true) ->
      nth_error y j = Some yj ->
      exists p,
        outcome (predict [q] 1) (after (fit X y) self) = Ok [p] /\
        same_number p yj) /\
  (forall (AS : Argsort) self,
      outcome (predict (L := numpy_reference) [example_query] 1)
              (after (fit example_X example_y) self) = Ok [10%float]).
Proof.
  split; [|split].
  - intros L AS X y q ds j yj self Hds Hj Hstrict Hy.
    exists (mean [yj]).
    split; [apply (@f64_predict_nearest L AS X y q ds j yj self); assumption|].
    apply mean_one.
  - intros L AS X y q ds j yj self Hds Hj H0 Hpos Hy.
    exists (mean [yj]). split; [|apply mean_one].
    apply (@f64_predict_nearest L AS X y q ds j yj self Hds Hj); [|exact Hy].
    intros i Hi Hij. unfold np_ltb. rewrite H0, (Hpos i Hi Hij). reflexivity.
  - intros AS self. rewrite f64_example_prediction. reflexivity.
Qed.

Lemma predict_k_one_nearest_computed_witness :
  scanned (L := numpy_reference) example_X example_query example_distances /\
  (0 < length example_distances)%nat /\
  (forall i, (i < length example_distances)%nat -> i <> 0%nat ->
             np_ltb (nth 0 example_distances 0%float)
                    (nth i example_distances 0%float) = true) /\
  nth_error example_y 0 = Some 10%float /\
  exists p,
    outcome (predict (L := numpy_reference) (AS := stable_argsort)
               [example_query] 1)
            (after (fit example_X example_y) KNN_new) = Ok [p] /\
    same_number p 10%float.
Proof.
  assert (H1 : scanned (L := numpy_reference)
                 example_X example_query example_distances)
    by reflexivity.
  assert (H2 : (0 < length example_distances)%nat) by (simpl; lia).
  assert (H3 : forall i, (i < length example_distances)%nat -> i <> 0%nat ->
                 np_ltb (nth 0 example_distances 0%float)
                        (nth i example_distances 0%float) = true).
  { intros i Hi Hne. simpl in Hi.
    destruct i as [|[|[|i]]]; try lia; reflexivity. }
  assert (H4 : nth_error example_y 0 = Some 10%float) by reflexivity.
  repeat (split; [assumption|]).
  exact (proj1 predict_k_one_nearest_computed numpy_reference stable_argsort
           example_X
               example_y example_query example_distances 0%nat 10%float
               KNN_new H1 H2 H3 H4).
Defined.

(** ** The selected neighbours *)









(** ** Further properties over binary64 *)

(** X10.  With [k = 1] and at least one training point, each prediction is
    the target of a training point whose computed distance to the query no
    other training point undercuts, whether or not that point is the only
    such one.  (A target [-0.0] may come back as [+0.0].) *)
Theorem predict_k_one_is_a_nearest_computed :
  forall (L : Numeric) (AS : Argsort) (X : matrix) (y : list float) qs self,
    length X = length y -> X <> [] -> scannable X qs ->
    exists ps,
      outcome (predict qs 1) (after (fit X y) self) = Ok ps /\
      Forall2 (fun q p =>
                 exists ds j yj,
                   scanned X q ds /\ nth_error y j = Some yj /\
                   same_number p yj /\
                   forall i, (i < length ds)%nat -> by_distance ds j i)
              qs ps.
Proof.
  intros L AS X y qs self Hlen Hne Hqs.
  destruct (@f64_predict_scannable L AS X y qs 1%Z self Hlen Hqs)
    as (ps & Hps & Hall).
  exists ps. split; [exact Hps|].
  eapply Forall2_impl; [|exact Hall].
  intros q p (ds & Hds & ->).
  pose proof (traverse_length _ _ Hds) as Hl.
  assert (Hdne : ds <> []).
  { intros ->. destruct X; [congruence | discriminate]. }
  destruct (f64_argsort_head_minimal Hdne) as (j & rest & Hhead & Hj & Hmin).
  exists ds, j, (nth j y 0%float).
  split; [exact Hds|].
  split; [apply nth_error_nth'; congruence|].
  split; [|exact Hmin].
  unfold selected_targets. rewrite Hhead.
  change (slice_to (j :: rest) 1) with [j].
  apply mean_one.
Qed.

Lemma predict_k_one_is_a_nearest_computed_witness :
  length example_X = length example_y /\ example_X <> [] /\
  scannable (L := numpy_reference) example_X [example_query] /\
  exists ps,
    outcome (predict (L := numpy_reference) (AS := stable_argsort)
               [example_query] 1)
            (after (fit example_X example_y) KNN_new) = Ok ps /\
    Forall2 (fun q p =>
               exists ds j yj,
                 scanned (L := numpy_reference)
                   example_X q ds /\ nth_error example_y j = Some yj /\
                 same_number p yj /\
                 forall i, (i < length ds)%nat -> by_distance ds j i)
            [example_query] ps.
Proof.
  assert (H1 : length example_X = length example_y) by reflexivity.
  assert (H2 : example_X <> []) by discriminate.
  assert (H3 : scannable (L := numpy_reference) example_X [example_query]).
  { repeat constructor; eexists; reflexivity. }
  split; [exact H1|]. split; [exact H2|]. split; [exact H3|].
  exact (@predict_k_one_is_a_nearest_computed numpy_reference stable_argsort
           example_X
           example_y [example_query] KNN_new H1 H2 H3).
Defined.

Lemma f64_selected_targets_map {AS : Argsort} (f : float -> float)
      (y : list float) ds k :
  length ds = length y ->
  selected_targets (map f y) ds k = map f (selected_targets y ds k).
Proof.
  intros Hlen. unfold selected_targets. rewrite map_map.
  apply map_ext_in. intros i Hi.
  pose proof (f64_slice_in_range ds k) as Hr.
  rewrite Forall_forall in Hr. specialize (Hr i Hi). rewrite Hlen in Hr.
  rewrite (nth_indep (map f y) 0%float (f 0%float))
    by (rewrite length_map; exact Hr).
  apply map_nth.
Qed.

(** X13.  The neighbours chosen do not depend on the targets: fitting on
    the images [f t] of the targets makes every prediction [np.mean] of the
    images of the very targets that were averaged before. *)
Theorem predict_selection_ignores_targets :
  forall (L : Numeric) (AS : Argsort) (f : float -> float)
         (X : matrix) (y : list float)
         qs k self,
    length X = length y -> scannable X qs ->
    exists ps ps',
      outcome (predict qs k) (after (fit X y) self) = Ok ps /\
      outcome (predict qs k) (after (fit X (map f y)) self) = Ok ps' /\
      Forall2 (fun p p' => exists sel, p = mean sel /\ p' = mean (map f sel))
              ps ps'.
Proof.
  intros L AS f X y qs k self Hlen Hqs.
  unfold outcome, after. rewrite !f64_fit_run, !f64_predict_run.
  cbn [fst snd].
  induction Hqs as [|q qs [ds Hds] _ (ps & ps' & IH1 & IH2 & IH3)].
  - exists [], []. repeat split. constructor.
  - cbn [traverse].
    rewrite (@f64_predict_point_scanned L AS X y k q ds Hlen Hds), IH1.
    rewrite (@f64_predict_point_scanned L AS X (map f y) k q ds), IH2;
      [|rewrite length_map; exact Hlen | exact Hds].
    do 2 eexists. split; [reflexivity|]. split; [reflexivity|].
    constructor; [|exact IH3].
    exists (selected_targets y ds k). split; [reflexivity|].
    rewrite f64_selected_targets_map; [reflexivity|].
    rewrite (traverse_length _ _ Hds). exact Hlen.
Qed.

Lemma predict_selection_ignores_targets_witness :
  length example_X = length example_y /\
  scannable (L := numpy_reference) example_X [example_query] /\
  exists ps ps',
    outcome (predict (L := numpy_reference) (AS := stable_argsort)
               [example_query] 2)
            (after (fit example_X example_y) KNN_new) = Ok ps /\
    outcome (predict (L := numpy_reference) (AS := stable_argsort)
               [example_query] 2)
            (after (fit example_X (map (fun t => t * t)%float example_y))
                   KNN_new) = Ok ps' /\
    Forall2 (fun p p' =>
               exists sel,
                 p = pairwise_mean sel /\
                 p' = pairwise_mean (map (fun t => t * t)%float sel))
            ps ps'.
Proof.
  assert (H1 : length example_X = length example_y) by reflexivity.
  assert (H2 : scannable (L := numpy_reference) example_X [example_query]).
  { repeat constructor; eexists; reflexivity. }
  split; [exact H1|]. split; [exact H2|].
  exact (@predict_selection_ignores_targets numpy_reference stable_argsort
           (fun t => t * t)%float example_X example_y [example_query] 2%Z
           KNN_new H1 H2).
Defined.

(** The distance to a row of a training set that can be scanned. *)
Definition distance_to {L : Numeric} (q row : vec) : float :=
  match euc q row with
  | Ok d => d
  | Err _ => 0%float
  end.

Lemma f64_scanned_map {L : Numeric} (X : matrix) q ds :
  scanned X q ds -> ds = map (distance_to q) X.
Proof.
  unfold scanned. revert ds.
  induction X as [|row X IH]; simpl; intros ds H.
  - injection H as <-. reflexivity.
  - unfold distance_to at 1.
    destruct (euc q row) as [d|]; [|discriminate].
    destruct (traverse (euc q) X) as [r|]; [|discriminate].
    injection H as <-. rewrite (IH r eq_refl). reflexivity.
Qed.

Lemma f64_scanned_rows {L : Numeric} (X : matrix) q ds :
  scanned X q ds -> Forall (fun row => euc q row = Ok (distance_to q row)) X.
Proof.
  unfold scanned. revert ds.
  induction X as [|row X IH]; simpl; intros ds H; constructor.
  - unfold distance_to. destruct (euc q row); [reflexivity | discriminate].
  - destruct (euc q row); [|discriminate].
    destruct (traverse (euc q) X) as [r|]; [|discriminate].
    apply (IH r eq_refl).
Qed.

Definition keyed (ds : list float) (y : list float) (i : nat) : float * float :=
  (nth i ds 0%float, nth i y 0%float).

Lemma f64_map_keyed_seq ds y :
  length ds = length y ->
  map (keyed ds y) (seq 0 (length ds)) = combine ds y.
Proof.
  intros Hlen.
  transitivity (map (fun i => nth i (combine ds y) (0%float, 0%float))
                    (seq 0 (length (combine ds y)))).
  - rewrite length_combine, <- Hlen, Nat.min_id.
    apply map_ext. intros i. unfold keyed.
    symmetry. apply combine_nth, Hlen.
  - apply map_nth_seq.
Qed.

Lemma f64_sorted_pairs_unique (AS1 AS2 : Argsort) ds y ds' y' :
  length ds = length y -> length ds' = length y' ->
  Permutation (combine ds y) (combine ds' y') ->
  no_ties ds ->
  map (keyed ds y) (@argsort AS1 ds) = map (keyed ds' y') (@argsort AS2 ds').
Proof.
  intros Hlen Hlen' Hperm Hnt.
  apply (@sorted_perm_unique _ (fun a b => np_leb (fst a) (fst b) = true)).
  - eapply perm_trans; [apply Permutation_map, argsort_perm|].
    rewrite (f64_map_keyed_seq _ _ Hlen).
    eapply perm_trans; [exact Hperm|].
    rewrite <- (f64_map_keyed_seq _ _ Hlen').
    apply Permutation_sym, Permutation_map, argsort_perm.
  - apply StronglySorted_map. apply argsort_sorted.
  - apply StronglySorted_map. apply argsort_sorted.
  - intros a b Ha Hb Hab Hba.
    apply in_map_iff in Ha. destruct Ha as (i & <- & Hi).
    apply in_map_iff in Hb. destruct Hb as (j & <- & Hj).
    pose proof (@f64_argsort_in_range AS1 ds) as Hr.
    rewrite Forall_forall in Hr.
    destruct (Nat.eq_dec i j) as [E|N]; [congruence|exfalso].
    simpl in Hab, Hba. unfold np_leb in Hab, Hba.
    destruct (Hnt i j (Hr i Hi) (Hr j Hj) N) as [H|H];
      rewrite H in *; discriminate.
Qed.

(** X14.  The order of the training data does not matter when the
    distances computed for a query are pairwise different: two training
    sets holding the same (row, target) pairs in different orders give the
    same predictions, bit for bit. *)
Theorem predict_training_order_irrelevant_computed :
  forall (L : Numeric) (AS : Argsort) (X : matrix) (y : list float)
         (X' : matrix) (y' : list float) qs k self self',
    length X = length y -> length X' = length y' ->
    Permutation (combine X y) (combine X' y') ->
    Forall (fun q => exists ds, scanned X q ds /\ no_ties ds) qs ->
    outcome (predict qs k) (after (fit X y) self) =
    outcome (predict qs k) (after (fit X' y') self').
Proof.
  intros L AS X y X' y' qs k self self' Hlen Hlen' Hperm Hqs.
  assert (HX' : Permutation X X').
  { rewrite <- (map_fst_combine_same_length X y Hlen).
    rewrite <- (map_fst_combine_same_length X' y' Hlen').
    apply Permutation_map, Hperm. }
  unfold outcome, after. rewrite !f64_fit_run, !f64_predict_run.
  cbn [fst snd].
  apply traverse_ext_in.
  eapply Forall_impl; [|exact Hqs].
  intros q (ds & Hds & Hnt).
  assert (Hds' : scanned X' q (map (distance_to q) X')).
  { apply traverse_ok_map.
    apply (Permutation_Forall HX').
    apply (f64_scanned_rows Hds). }
  rewrite (@f64_predict_point_scanned L AS X y k q ds Hlen Hds).
  rewrite (@f64_predict_point_scanned L AS X' y' k q _ Hlen' Hds').
  do 2 f_equal. unfold selected_targets.
  transitivity (map snd (slice_to (map (keyed ds y) (argsort ds)) k)).
  { rewrite slice_to_map, map_map. reflexivity. }
  rewrite (@f64_sorted_pairs_unique AS AS ds y (map (distance_to q) X') y').
  - rewrite slice_to_map, map_map. reflexivity.
  - rewrite (traverse_length _ _ Hds). exact Hlen.
  - rewrite length_map. exact Hlen'.
  - rewrite (f64_scanned_map Hds), !combine_map_l.
    apply Permutation_map, Hperm.
  - exact Hnt.
Qed.

Lemma predict_training_order_irrelevant_computed_witness :
  length example_X = length example_y /\
  length [[0; 10]; [0; 0]; [10; 0]]%float = length [30; 10; 20]%float /\
  Permutation (combine example_X example_y)
              (combine [[0; 10]; [0; 0]; [10; 0]]%float [30; 10; 20]%float) /\
  Forall (fun q => exists ds, scanned (L := numpy_reference)
                                example_X q ds /\ no_ties ds)
         [example_query] /\
  outcome (predict (L := numpy_reference) (AS := stable_argsort)
             [example_query] 2)
          (after (fit example_X example_y) KNN_new) =
  outcome (predict (L := numpy_reference) (AS := stable_argsort)
             [example_query] 2)
          (after (fit [[0; 10]; [0; 0]; [10; 0]]%float [30; 10; 20]%float)
                 KNN_new).
Proof.
  assert (H1 : length example_X = length example_y) by reflexivity.
  assert (H2 : length [[0; 10]; [0; 0]; [10; 0]]%float
               = length [30; 10; 20]%float) by reflexivity.
  assert (H3 : Permutation (combine example_X example_y)
                 (combine [[0; 10]; [0; 0]; [10; 0]]%float
                          [30; 10; 20]%float)).
  { simpl. eapply perm_trans; [apply perm_skip, perm_swap | apply perm_swap]. }
  assert (H4 : Forall (fun q => exists ds, scanned (L := numpy_reference)
                                             example_X q ds /\ no_ties ds)
                      [example_query]).
  { constructor; [|constructor].
    exists example_distances.
    split; [reflexivity | exact f64_example_no_ties]. }
  repeat (split; [assumption|]).
  exact (@predict_training_order_irrelevant_computed numpy_reference stable_argsort
           example_X example_y [[0; 10]; [0; 0]; [10; 0]]%float
           [30; 10; 20]%float [example_query] 2%Z KNN_new KNN_new
           H1 H2 H3 H4).
Defined.

End Float64.

(** * Computed against exact distances

    The training rows (1, 2^-30) and (1, 0), with the targets 10 and 20,
    and the query (0, 0).  Exactly, the second row is the nearer one: its
    squared distance is 1, the first row's is 1 + 2^-60.  Computed in
    binary64, both distances are 1. *)

Definition close_X : Float64.matrix := [[1; 0x1p-30]; [1; 0]]%float.
Definition close_y : list float := [10; 20]%float.
Definition close_query : Float64.vec := [0; 0]%float.

(** C2 as stated fails: the training point strictly closest to the query is
    the second one, with target 20, and [predict] with [k = 1] returns
    10. *)
Lemma nearest_in_exact_distance_not_returned :
  strictly_closest (map exact_value close_query)
                   (map (map exact_value) close_X) 1 /\
  nth_error close_y 1 = Some 20%float /\
  Float64.outcome (Float64.predict (L := Float64.numpy_reference)
                             (AS := Float64.stable_argsort)
                                   [close_query] 1)
                  (Float64.after (Float64.fit close_X close_y)
                                 Float64.KNN_new)
  = Ok [10%float].
Proof.
  split; [|split; reflexivity].
  eexists. split; [vm_compute; reflexivity|].
  split; [simpl; lia|].
  intros i Hi Hne. simpl in Hi.
  destruct i as [|[|i]]; try lia. vm_compute. reflexivity.
Qed.

